(** * nl2sql: the schema-aware query-generation pipeline of [query_processor.py]

    A shallow embedding of [QueryProcessor] (identifier quoting, the
    lexical table-name rewrite, table validation, chunk planning, confidence
    parsing and best-candidate selection) and of the caller's check in
    [chat_interface.py], together with the properties of the design
    document that concern them.  Around these: the clean-up of a generated
    query, the requests sent to the completion service, the search results
    that [VectorStore.find_relevant_tables] hands over, the command loop of
    the chat interface, and the ignore file of [SchemaEnricher] with the
    default one that [digest_schema.py] writes.

    Text model.  A Python [str] is modelled by [string]; the model is exact
    for ASCII text (code points below 128), which is what SQL keywords,
    bare identifiers and the separators used by the code consist of.
    Beyond ASCII Python follows the Unicode character database for case,
    whitespace and word characters; the statements that depend on these
    are made for ASCII text ([TextScope.ascii_text]), and the module
    [Unicode] gives the quoting and the rewrite on texts that also hold a
    few characters outside ASCII, with Python's data for them. *)

From Stdlib Require Import String Ascii List Bool Arith NArith ZArith Lia.
From Stdlib Require Import Floats.
Import ListNotations.
Open Scope string_scope.
Open Scope bool_scope.

(** ** Python string primitives *)

Module PyStr.

Definition code (c : ascii) : N := N_of_ascii c.

Definition in_range (lo hi : N) (c : ascii) : bool :=
  (lo <=? code c)%N && (code c <=? hi)%N.

(** The ASCII ranges [A-Z], [a-z], [0-9]. *)
Definition is_upper_ch : ascii -> bool := in_range 65 90.
Definition is_lower_ch : ascii -> bool := in_range 97 122.
Definition is_digit_ch : ascii -> bool := in_range 48 57.
Definition is_letter_ch (c : ascii) : bool := is_upper_ch c || is_lower_ch c.

(** [str.isspace] on one ASCII character: tab, line feed, vertical tab,
    form feed, carriage return, the four separators 0x1c..0x1f, and space. *)
Definition is_space (c : ascii) : bool :=
  in_range 9 13 c || in_range 28 32 c.

Definition lower_ch (c : ascii) : ascii :=
  if is_upper_ch c then ascii_of_N (code c + 32) else c.

Definition upper_ch (c : ascii) : ascii :=
  if is_lower_ch c then ascii_of_N (code c - 32) else c.

Fixpoint str_map (f : ascii -> ascii) (s : string) : string :=
  match s with
  | EmptyString => EmptyString
  | String c s' => String (f c) (str_map f s')
  end.

(** [s.lower()] and [s.upper()] for ASCII text: only the letters [A-Z]
    and [a-z] change. *)
Definition lower : string -> string := str_map lower_ch.
Definition upper : string -> string := str_map upper_ch.

Fixpoint str_forall (p : ascii -> bool) (s : string) : bool :=
  match s with
  | EmptyString => true
  | String c s' => p c && str_forall p s'
  end.

Fixpoint str_exists (p : ascii -> bool) (s : string) : bool :=
  match s with
  | EmptyString => false
  | String c s' => p c || str_exists p s'
  end.

(** [c in s] for a one-character string [c]. *)
Definition contains (c : ascii) (s : string) : bool :=
  str_exists (Ascii.eqb c) s.

(** [x in xs] for a list or set of strings. *)
Definition str_in (x : string) (xs : list string) : bool :=
  existsb (String.eqb x) xs.

(** [s.lstrip()], [s.rstrip()], [s.strip()], with the whitespace of
    [is_space]. *)
Fixpoint lstrip (s : string) : string :=
  match s with
  | EmptyString => EmptyString
  | String c s' => if is_space c then lstrip s' else s
  end.

Fixpoint rstrip (s : string) : string :=
  match s with
  | EmptyString => EmptyString
  | String c s' =>
      match rstrip s' with
      | EmptyString => if is_space c then EmptyString else String c EmptyString
      | r => String c r
      end
  end.

Definition strip (s : string) : string := rstrip (lstrip s).

(** [s.split(sep)] for a one-character separator: the fields between the
    separators, empty fields included; never the empty list. *)
Fixpoint split (sep : ascii) (s : string) : list string :=
  match s with
  | EmptyString => [EmptyString]
  | String c s' =>
      if Ascii.eqb c sep then EmptyString :: split sep s'
      else match split sep s' with
           | f :: fs => String c f :: fs
           | [] => [String c EmptyString]
           end
  end.

(** [s.replace(old, new)] for a non-empty [old]; [skip] counts the characters
    of the current occurrence still to be passed over. *)
Fixpoint replace_from (old new : string) (skip : nat) (s : string) : string :=
  match s with
  | EmptyString => EmptyString
  | String c s' =>
      match skip with
      | S k => replace_from old new k s'
      | O =>
          if String.prefix old s
          then new ++ replace_from old new (String.length old - 1) s'
          else String c (replace_from old new 0 s')
      end
  end.

Definition replace (old new s : string) : string := replace_from old new 0 s.


End PyStr.

(** ** Regular expressions: [re.sub]

    The patterns of [query_processor.py] are built from word boundaries,
    character classes, literals, sequences, alternatives, greedy
    repetitions of a character class and capturing groups.  The matcher is
    the backtracking one of Python's [re]: alternatives are tried in
    order, a greedy repetition takes as much as it can and gives characters
    back one at a time, each choice being kept only if everything that
    follows in the pattern then matches. *)

Module Re.
Import PyStr.

(** [\w] on ASCII text. *)
Definition word_ch (c : ascii) : bool :=
  is_letter_ch c || is_digit_ch c || Ascii.eqb c "_".

Definition head_is (p : ascii -> bool) (s : string) : bool :=
  match s with
  | String c _ => p c
  | EmptyString => false
  end.

(** Whether the character just before the position reached after reading
    [s] is a word character; [before] is the answer for the empty text. *)
Fixpoint ends_in_word (before : bool) (s : string) : bool :=
  match s with
  | EmptyString => before
  | String c s' => ends_in_word (word_ch c) s'
  end.

(** [\b] at the position between a text whose last character is a word
    character iff [before], and the remaining text [s]. *)
Definition at_boundary (before : bool) (s : string) : bool :=
  xorb before (head_is word_ch s).

Inductive regex : Type :=
| Eps : regex
| Boundary : regex
| Chr (p : ascii -> bool) : regex
| Seq (r1 r2 : regex) : regex
| Alt (r1 r2 : regex) : regex
| Star (p : ascii -> bool) : regex
| Group (n : nat) (r : regex) : regex.

(** [p+]. *)
Definition Plus (p : ascii -> bool) : regex := Seq (Chr p) (Star p).

(** A literal: case-sensitive, and under [re.IGNORECASE] on ASCII text,
    where a letter matches its two cases and nothing else. *)
Fixpoint literal (s : string) : regex :=
  match s with
  | EmptyString => Eps
  | String l s' => Seq (Chr (Ascii.eqb l)) (literal s')
  end.

Definition same_letter (l c : ascii) : bool :=
  Ascii.eqb (lower_ch c) (lower_ch l).

Fixpoint literal_ci (s : string) : regex :=
  match s with
  | EmptyString => Eps
  | String l s' => Seq (Chr (same_letter l)) (literal_ci s')
  end.

(** The matcher's position: whether the previous character is a word
    character, the text still to read, and the groups captured so far. *)
Record cursor : Type := mkCursor
  { before : bool; rest : string; groups : list (nat * string) }.

(** The text read between two positions. *)
Definition consumed (from to : string) : string :=
  substring 0 (String.length from - String.length to) from.

(** Greedy repetition: first with one more character, then without. *)
Fixpoint star_from (p : ascii -> bool) (k : cursor -> option cursor)
    (b : bool) (s : string) (g : list (nat * string)) : option cursor :=
  match s with
  | String c s' =>
      if p c then
        match star_from p k (word_ch c) s' g with
        | Some found => Some found
        | None => k (mkCursor b s g)
        end
      else k (mkCursor b s g)
  | EmptyString => k (mkCursor b s g)
  end.

(** [run r k cur]: match [r] at [cur] and then whatever [k] stands for. *)
Fixpoint run (r : regex) (k : cursor -> option cursor) (cur : cursor)
    : option cursor :=
  match r with
  | Eps => k cur
  | Boundary => if at_boundary (before cur) (rest cur) then k cur else None
  | Chr p =>
      match rest cur with
      | String c s' =>
          if p c then k (mkCursor (word_ch c) s' (groups cur)) else None
      | EmptyString => None
      end
  | Seq r1 r2 => run r1 (run r2 k) cur
  | Alt r1 r2 =>
      match run r1 k cur with
      | Some found => Some found
      | None => run r2 k cur
      end
  | Star p => star_from p k (before cur) (rest cur) (groups cur)
  | Group n r1 =>
      run r1
          (fun cur' =>
             k (mkCursor (before cur') (rest cur')
                         ((n, consumed (rest cur) (rest cur')) :: groups cur')))
          cur
  end.

(** A match object: the text matched and the groups. *)
Record MatchObject : Type := mkMatchObject
  { whole : string; captured : list (nat * string) }.

Fixpoint lookup_group (n : nat) (g : list (nat * string)) : string :=
  match g with
  | [] => EmptyString
  | (i, text) :: g' => if Nat.eqb i n then text else lookup_group n g'
  end.

(** [m.group(n)]. *)
Definition group (m : MatchObject) (n : nat) : string :=
  match n with
  | O => whole m
  | S _ => lookup_group n (captured m)
  end.

(** A match of [r] starting exactly here: the match object and the text
    after the match. *)
Definition match_at (r : regex) (b : bool) (s : string)
    : option (MatchObject * string) :=
  match run r Some (mkCursor b s []) with
  | Some cur => Some (mkMatchObject (consumed s (rest cur)) (groups cur), rest cur)
  | None => None
  end.

(** [re.sub(r, repl, s)] for a pattern that cannot match the empty text, as
    is the case of every pattern of the code: at each position, left to
    right, a match is replaced by [repl m] and scanning resumes after it; a
    character at which nothing matches is copied.  [skip] counts the
    characters of the current match still to be passed over. *)
Fixpoint re_sub_from (r : regex) (repl : MatchObject -> string) (skip : nat)
    (b : bool) (s : string) : string :=
  match s with
  | EmptyString => EmptyString
  | String c s' =>
      match skip with
      | S k => re_sub_from r repl k (word_ch c) s'
      | O =>
          match match_at r b s with
          | Some (m, _) =>
              repl m
              ++ re_sub_from r repl (String.length (whole m) - 1) (word_ch c) s'
          | None => String c (re_sub_from r repl 0 (word_ch c) s')
          end
      end
  end.

Definition re_sub (r : regex) (repl : MatchObject -> string) (s : string)
    : string :=
  re_sub_from r repl 0 false s.

End Re.

(** ** [QueryProcessor]: identifier quoting *)

Module QueryProcessor.
Import PyStr.

Definition MAX_TOKENS : nat := 4000.
Definition TOKENS_PER_TABLE : nat := 800.

Definition pg_keywords : list string :=
  [ "all"; "analyse"; "analyze"; "and"; "any"; "array"; "as"; "asc";
    "asymmetric"; "authorization"; "binary"; "both"; "case"; "cast";
    "check"; "collate"; "column"; "constraint"; "create"; "cross";
    "current_date"; "current_role"; "current_time"; "current_timestamp";
    "current_user"; "default"; "deferrable"; "desc"; "distinct"; "do";
    "else"; "end"; "except"; "false"; "for"; "foreign"; "freeze"; "from";
    "full"; "grant"; "group"; "having"; "ilike"; "in"; "initially"; "inner";
    "intersect"; "into"; "is"; "isnull"; "join"; "leading"; "left"; "like";
    "limit"; "localtime"; "localtimestamp"; "natural"; "not"; "notnull";
    "null"; "offset"; "on"; "only"; "or"; "order"; "outer"; "overlaps";
    "placing"; "primary"; "references"; "right"; "select"; "session_user";
    "similar"; "some"; "symmetric"; "table"; "then"; "to"; "trailing";
    "true"; "union"; "unique"; "user"; "using"; "verbose"; "when"; "where" ].

Definition _needs_quoting (identifier : string) : bool :=
  (upper identifier =? identifier)
  || negb (lower identifier =? identifier)
  || contains " " identifier
  || existsb (fun c => contains c identifier) ["."%char; "-"%char]
  || str_in (lower identifier) pg_keywords.

Definition dquote : string := String (ascii_of_N 34) EmptyString.

Definition _quote_identifier (identifier : string) : string :=
  if _needs_quoting identifier then dquote ++ identifier ++ dquote
  else identifier.

(** *** The table-name rewrite *)

(** A Python [dict] from strings to strings, in insertion order; assigning
    to a key already present replaces its value. *)
Definition dict : Type := list (string * string).

Fixpoint dict_set (d : dict) (k v : string) : dict :=
  match d with
  | [] => [(k, v)]
  | (k', v') :: d' =>
      if k' =? k then (k', v) :: d' else (k', v') :: dict_set d' k v
  end.

Fixpoint dict_get (d : dict) (k : string) : option string :=
  match d with
  | [] => None
  | (k', v') :: d' => if k' =? k then Some v' else dict_get d' k
  end.

(** [{name.lower(): name for name in table_names}]. *)
Definition table_case_map (table_names : list string) : dict :=
  fold_left (fun d name => dict_set d (lower name) name) table_names [].

(** [[a-zA-Z_]] and [[a-zA-Z0-9_]] on ASCII text: there both classes are
    closed under change of case, so [re.IGNORECASE] leaves them as they
    are. *)
Definition ident_start (c : ascii) : bool :=
  is_letter_ch c || Ascii.eqb c "_".
Definition ident_ch (c : ascii) : bool :=
  is_letter_ch c || is_digit_ch c || Ascii.eqb c "_".

(** [\b(FROM|JOIN|UPDATE|INTO|TABLE)\s+([a-zA-Z_][a-zA-Z0-9_]* )\b], compiled
    with [re.IGNORECASE]. *)
Definition table_pattern : Re.regex :=
  Re.Seq Re.Boundary
    (Re.Seq
       (Re.Group 1
          (Re.Alt (Re.literal_ci "FROM")
          (Re.Alt (Re.literal_ci "JOIN")
          (Re.Alt (Re.literal_ci "UPDATE")
          (Re.Alt (Re.literal_ci "INTO")
                  (Re.literal_ci "TABLE"))))))
    (Re.Seq (Re.Plus is_space)
    (Re.Seq
       (Re.Group 2 (Re.Seq (Re.Chr ident_start) (Re.Star ident_ch)))
       Re.Boundary))).

Definition replace_table_name (case_map : dict) (m : Re.MatchObject) : string :=
  let keyword := Re.group m 1 in
  let table_name := Re.group m 2 in
  let original_case :=
    match dict_get case_map (lower table_name) with
    | Some name => name
    | None => table_name
    end in
  let quoted_name := _quote_identifier original_case in
  keyword ++ " " ++ quoted_name.

Definition _process_sql_query (sql_query : string) (table_names : list string)
    : string :=
  Re.re_sub table_pattern (replace_table_name (table_case_map table_names))
            sql_query.

(** [,(\s*CLAUSE)], and the replacement template [\1]. *)
Definition comma_before (clause : Re.regex) : Re.regex :=
  Re.Seq (Re.Chr (Ascii.eqb ","))
         (Re.Group 1 (Re.Seq (Re.Star is_space) clause)).

Definition first_group (m : Re.MatchObject) : string := Re.group m 1.

(** *** Candidates and chunks *)

Record ColumnInfo : Type := mkColumn
  { col_type : string; nullable : bool; primary_key : bool }.

Record ForeignKey : Type := mkForeignKey
  { constrained_columns : list string;
    referred_table : string;
    referred_columns : list string }.

Record TableSchema : Type := mkSchema
  { columns : list (string * ColumnInfo);
    foreign_keys : list ForeignKey }.

Record TableCandidate : Type := mkCandidate
  { table_name : string;
    description : string;
    schema : TableSchema;
    similarity_score : float }.

(** [range(start, stop, step)] for a positive [step]. *)
Definition py_range (start stop step : nat) : list nat :=
  let len := if (start <? stop)%nat then (stop - start - 1) / step + 1 else 0 in
  map (fun k => start + k * step) (seq 0 len).

(** [l[i:j]] for [0 <= i <= j]. *)
Definition slice {A : Type} (l : list A) (i j : nat) : list A :=
  firstn (j - i) (skipn i l).

Definition tables_per_chunk : nat := Nat.max 1 (MAX_TOKENS / TOKENS_PER_TABLE).

(** The chunks [generate_sql] hands to [process_schema_chunk], in order:
    the whole list when it fits, else the slices of its [for] loop. *)
Definition plan {A : Type} (validated_tables : list A) : list (list A) :=
  if (List.length validated_tables <=? tables_per_chunk)%nat then [validated_tables]
  else map (fun i => slice validated_tables i (i + tables_per_chunk))
           (py_range 0 (List.length validated_tables) tables_per_chunk).

(** *** The completion service

    Every call of [client.chat.completions.create] sends a prompt that the
    method builds from its arguments; the service is an oracle that
    answers with a text and may change between calls. *)

Inductive Request : Type :=
| AskRelevant (relevant_tables : list TableCandidate)
| AskSql (tables : list TableCandidate) (query : string)
| AskConfidence (sql_query original_query : string)
                (tables : list TableCandidate).

Section Service.

Context {World : Type}.
Variable complete : Request -> World -> string * World.

(** [float(text)]: [None] stands for [ValueError]. *)
Variable py_float : string -> option float.

Definition M (A : Type) : Type := World -> A * World.
Definition ret {A : Type} (a : A) : M A := fun w => (a, w).
Definition bind {A B : Type} (c : M A) (k : A -> M B) : M B :=
  fun w => let (a, w') := c w in k a w'.

Notation "x <- c ;; k" := (bind c (fun x => k))
  (at level 61, c at next level, right associativity).

Definition validate_tables (relevant_tables : list TableCandidate)
    : M (list TableCandidate) :=
  content <- complete (AskRelevant relevant_tables) ;;
  let validated_tables := split ","%char (strip content) in
  ret (filter (fun table => str_in (table_name table) validated_tables)
              relevant_tables).

Definition fence : string := "```".

Definition process_schema_chunk (tables : list TableCandidate) (query : string)
    : M string :=
  let table_names := map table_name tables in
  content <- complete (AskSql tables query) ;;
  let sql_query := strip content in
  let sql_query :=
    strip (replace fence "" (replace (fence ++ "sql") "" sql_query)) in
  let sql_query :=
    Re.re_sub (comma_before (Re.literal "FROM")) first_group sql_query in
  let sql_query :=
    Re.re_sub (comma_before (Re.literal "WHERE")) first_group sql_query in
  let sql_query :=
    Re.re_sub (comma_before
                 (Re.Seq (Re.literal "GROUP")
                         (Re.Seq (Re.Plus is_space) (Re.literal "BY"))))
              first_group sql_query in
  let sql_query :=
    Re.re_sub (comma_before
                 (Re.Seq (Re.literal "ORDER")
                         (Re.Seq (Re.Plus is_space) (Re.literal "BY"))))
              first_group sql_query in
  ret (_process_sql_query sql_query table_names).

Definition evaluate_query_confidence (sql_query original_query : string)
    (tables : list TableCandidate) : M float :=
  content <- complete (AskConfidence sql_query original_query tables) ;;
  ret match py_float (strip content) with
      | Some confidence => confidence
      | None => 0%float
      end.

(** The body of the [for] loop of [generate_sql], on the loop state
    [(best_query, highest_confidence)]. *)
Definition keep_best (state : option string * float)
    (proposed_query : string) (confidence : float) : option string * float :=
  if PrimFloat.ltb (snd state) confidence
  then (Some proposed_query, confidence)
  else state.

Fixpoint for_chunks (query : string) (validated_tables : list TableCandidate)
    (starts : list nat) (state : option string * float)
    : M (option string * float) :=
  match starts with
  | [] => ret state
  | i :: starts' =>
      let chunk := slice validated_tables i (i + tables_per_chunk) in
      proposed_query <- process_schema_chunk chunk query ;;
      confidence <- evaluate_query_confidence proposed_query query chunk ;;
      for_chunks query validated_tables starts'
                 (keep_best state proposed_query confidence)
  end.

(** [None] is Python's [None]. *)
Definition generate_sql (query : string) (relevant_tables : list TableCandidate)
    : M (option string) :=
  validated_tables <- validate_tables relevant_tables ;;
  if (List.length validated_tables <=? tables_per_chunk)%nat then
    sql <- process_schema_chunk validated_tables query ;;
    ret (Some sql)
  else
    final <- for_chunks query validated_tables
               (py_range 0 (List.length validated_tables) tables_per_chunk)
               (None, 0%float) ;;
    ret (fst final).

(** The candidate and confidence obtained for each chunk, in order. *)
Fixpoint run_chunks (query : string) (chunks : list (list TableCandidate))
    : M (list (string * float)) :=
  match chunks with
  | [] => ret []
  | chunk :: chunks' =>
      proposed_query <- process_schema_chunk chunk query ;;
      confidence <- evaluate_query_confidence proposed_query query chunk ;;
      others <- run_chunks query chunks' ;;
      ret ((proposed_query, confidence) :: others)
  end.

(** The loop state after the given candidates. *)
Definition select_best (candidates : list (string * float))
    : option string * float :=
  fold_left (fun state pc => keep_best state (fst pc) (snd pc))
            candidates (None, 0%float).

End Service.

End QueryProcessor.

(** ** [ImprovedChatInterface.process_query] *)

Module ChatInterface.
Import QueryProcessor.

(** What [process_query] does with the generated query: either the text is
    handed to [execute_query], or a [ValueError] is raised, logged and
    turned into the result [(None, None)]. *)
Inductive Outcome : Type :=
| Execute (sql_query : string)
| Failed (message : string).

Section Pipeline.

Context {World : Type}.
Variable complete : Request -> World -> string * World.
Variable py_float : string -> option float.

(** [relevant_tables] is the answer of the similarity search. *)
Definition process_query (query : string)
    (relevant_tables : list TableCandidate) : M (World := World) Outcome :=
  match relevant_tables with
  | [] => ret (Failed "No relevant tables found for the query")
  | _ =>
      bind (generate_sql complete py_float query relevant_tables)
        (fun sql_query =>
           match sql_query with
           | None | Some EmptyString => ret (Failed "Failed to generate SQL query")
           | Some sql => ret (Execute sql)
           end)
  end.

End Pipeline.

End ChatInterface.

(** ** Views of the table-name scanner

    Auxiliary definitions for the proofs: a matcher for [table_pattern]
    that reads the text once and never backtracks, the same match read off
    the words and whitespace runs of the text, and conditions on the text
    before a table reference. *)

Module ScanView.
Import PyStr Re QueryProcessor.

(** A property of characters checked on all 256 of them. *)
Definition all_ascii (p : ascii -> bool) : bool :=
  forallb p (map ascii_of_nat (seq 0 256)).

(** The longest prefix whose characters satisfy [p], and the rest. *)
Fixpoint span (p : ascii -> bool) (s : string) : string * string :=
  match s with
  | EmptyString => (EmptyString, EmptyString)
  | String c s' =>
      if p c then let (a, b) := span p s' in (String c a, b)
      else (EmptyString, s)
  end.

(** A literal under [re.IGNORECASE]: the text matched and the rest. *)
Fixpoint match_ci (lit s : string) : option (string * string) :=
  match lit with
  | EmptyString => Some (EmptyString, s)
  | String l lit' =>
      match s with
      | EmptyString => None
      | String c s' =>
          if same_letter l c then
            match match_ci lit' s' with
            | Some (m, r) => Some (String c m, r)
            | None => None
            end
          else None
      end
  end.

(** A match of [table_pattern]: [group(1)], the text taken by [\s+], and
    [group(2)]. *)
Record Match : Type := mkMatch
  { group1 : string; separator : string; group2 : string }.

Definition group0 (m : Match) : string :=
  group1 m ++ separator m ++ group2 m.

Definition to_object (m : Match) : MatchObject :=
  mkMatchObject (group0 m) [(2, group2 m); (1, group1 m)].

Definition keywords : list string :=
  ["FROM"; "JOIN"; "UPDATE"; "INTO"; "TABLE"].

(** The pattern after its first group, once a keyword [g1] has been read:
    the whole whitespace run, the whole identifier run, the boundary. *)
Definition match_tail (g1 r1 : string) : option (Match * string) :=
  let (ws, r2) := span is_space r1 in
  match ws, r2 with
  | String _ _, String c r2' =>
      if ident_start c then
        let (tl, r3) := span ident_ch r2' in
        if at_boundary (ends_in_word false (String c tl)) r3
        then Some (mkMatch g1 ws (String c tl), r3)
        else None
      else None
  | _, _ => None
  end.

Fixpoint match_alt (kws : list string) (s : string) : option (Match * string) :=
  match kws with
  | [] => None
  | kw :: kws' =>
      let attempt :=
        match match_ci kw s with
        | Some (g1, r1) => match_tail g1 r1
        | None => None
        end in
      match attempt with
      | Some r => Some r
      | None => match_alt kws' s
      end
  end.

Definition match_here (b : bool) (s : string) : option (Match * string) :=
  if at_boundary b s then match_alt keywords s else None.

(** [re.sub] with [match_here] as the matcher. *)
Fixpoint scan_from (repl : Match -> string) (skip : nat) (b : bool)
    (s : string) : string :=
  match s with
  | EmptyString => EmptyString
  | String c s' =>
      match skip with
      | S k => scan_from repl k (word_ch c) s'
      | O =>
          match match_here b s with
          | Some (m, _) =>
              repl m ++ scan_from repl (String.length (group0 m) - 1) (word_ch c) s'
          | None => String c (scan_from repl 0 (word_ch c) s')
          end
      end
  end.

(** [replace_table_name] on a match of the direct matcher. *)
Definition replace_reference (case_map : dict) (m : Match) : string :=
  replace_table_name case_map (to_object m).

(** The word is one of the five keywords, in any case. *)
Definition is_keyword (word : string) : bool :=
  existsb (fun kw => lower word =? lower kw) keywords.

(** After a keyword [word]: a non-empty whitespace run and then a word that
    starts like an identifier. *)
Definition operand_tokens (word r : string) : option (Match * string) :=
  let (ws, r2) := span is_space r in
  match ws with
  | EmptyString => None
  | String _ _ =>
      let (g2, r3) := span word_ch r2 in
      if head_is ident_start g2 then Some (mkMatch word ws g2, r3) else None
  end.

Definition match_tokens (b : bool) (s : string) : option (Match * string) :=
  if b then None
  else
    let (word, r) := span word_ch s in
    if is_keyword word then operand_tokens word r else None.

(** The text ends in a keyword followed by nothing but whitespace, at least
    one character of it: a reference placed right after such a text would be
    read as the operand of that keyword. *)
Fixpoint ends_in_keyword (b : bool) (s : string) : bool :=
  match s with
  | EmptyString => false
  | String c s' =>
      (negb b &&
       (let (word, r) := span word_ch s in
        is_keyword word && negb (r =? EmptyString) && str_forall is_space r))
      || ends_in_keyword (word_ch c) s'
  end.

(** A text after which a keyword can start a reference of its own: it does
    not end in a word character, nor in a keyword and whitespace. *)
Definition reference_can_follow (pre : string) : bool :=
  negb (ends_in_word false pre) && negb (ends_in_keyword false pre).

(** A bare identifier: [[a-zA-Z_]] followed by [[a-zA-Z0-9_]]s. *)
Definition is_identifier (s : string) : bool :=
  head_is ident_start s && str_forall word_ch s.

(** A non-empty run of whitespace. *)
Definition is_blank (s : string) : bool :=
  negb (s =? EmptyString) && str_forall is_space s.

End ScanView.

(** ** The design document's wording, and test data *)

Module Design.
Import PyStr QueryProcessor.


End Design.

Module Fixtures.
Import QueryProcessor.

(** A completion service that answers with prepared texts, one per call. *)
Definition canned (_ : Request) (texts : list string) : string * list string :=
  match texts with
  | [] => (EmptyString, [])
  | t :: texts' => (t, texts')
  end.

(** A completion service that answers its n-th call with the n-th of the
    prepared texts, and with the empty text once they are used up. *)
Definition scripted (texts : list string) (_ : Request) (calls : nat)
    : string * nat :=
  (nth calls texts EmptyString, S calls).

(** The doubles nearest to 0.3 and 0.9, which is what [float] returns for
    these two texts. *)
Definition f0_3 : float := 0x1.3333333333333p-2%float.
Definition f0_9 : float := 0x1.ccccccccccccdp-1%float.

(** [float] restricted to the texts used in the examples. *)
Definition float_of_literal (text : string) : option float :=
  if text =? "0.3" then Some f0_3
  else if text =? "0.9" then Some f0_9
  else if text =? "0.0" then Some 0%float
  else None.

Definition table (name : string) : TableCandidate :=
  mkCandidate name "" (mkSchema [] []) 0%float.

Definition twelve_tables : list TableCandidate :=
  map table ["t1"; "t2"; "t3"; "t4"; "t5"; "t6"; "t7"; "t8"; "t9"; "t10";
             "t11"; "t12"].

Definition all_twelve : string := "t1,t2,t3,t4,t5,t6,t7,t8,t9,t10,t11,t12".

End Fixtures.

(** ** Views of the clean-up substitutions and of keyword-free text

    Auxiliary definitions for the proofs about the clean-up and the rewrite:
    what the four substitutions [,(\s*CLAUSE)] of [process_schema_chunk]
    remove, read character by character, and the texts in which the
    table-name rewrite finds no keyword. *)

Module CleanupView.
Import PyStr Re QueryProcessor ScanView.

(** The text after the literal [lit], when [s] starts with it. *)
Fixpoint after_literal (lit s : string) : option string :=
  match lit, s with
  | EmptyString, _ => Some s
  | String l lit', String c s' =>
      if Ascii.eqb l c then after_literal lit' s' else None
  | String _ _, EmptyString => None
  end.

(** The clause of a substitution: one word, or two words separated by
    [\s+]. *)
Definition clause (w1 : string) (w2 : option string) : regex :=
  match w2 with
  | None => literal w1
  | Some w => Seq (literal w1) (Seq (Plus is_space) (literal w))
  end.

(** [\s*W1], or [\s*W1\s+W2], read off the start of [s]: the text matched
    and the text after it. *)
Definition clause_text (w1 : string) (w2 : option string) (s : string)
    : option (string * string) :=
  let (ws, r) := span is_space s in
  match after_literal w1 r with
  | None => None
  | Some r1 =>
      match w2 with
      | None => Some (ws ++ w1, r1)
      | Some w =>
          let (ws2, r2) := span is_space r1 in
          match ws2, after_literal w r2 with
          | String _ _, Some r3 => Some (ws ++ w1 ++ ws2 ++ w, r3)
          | _, _ => None
          end
      end
  end.

Definition clause_follows (w1 : string) (w2 : option string) (s : string)
    : bool :=
  match clause_text w1 w2 s with
  | Some _ => true
  | None => false
  end.

(** The text without the commas that the clause directly follows. *)
Fixpoint drop_commas (w1 : string) (w2 : option string) (s : string) : string :=
  match s with
  | EmptyString => EmptyString
  | String c s' =>
      if Ascii.eqb c "," && clause_follows w1 w2 s'
      then drop_commas w1 w2 s'
      else String c (drop_commas w1 w2 s')
  end.

(** Some word of the text is one of the five keywords, in any case; [b]
    tells whether the text continues a word. *)
Fixpoint mentions_keyword (b : bool) (s : string) : bool :=
  match s with
  | EmptyString => false
  | String c s' =>
      (negb b && is_keyword (fst (span word_ch s)))
      || mentions_keyword (word_ch c) s'
  end.

End CleanupView.

(** ** The requests sent to the completion service *)

Module ServiceLog.
Import QueryProcessor.

(** The service [complete], keeping a record of the requests it receives,
    oldest first. *)
Definition recording {World : Type}
    (complete : Request -> World -> string * World)
    (request : Request) (w : list Request * World)
    : string * (list Request * World) :=
  let (text, w') := complete request (snd w) in
  (text, ((fst w ++ [request])%list, w')).

(** The two requests of one turn of the loop of [generate_sql]: the query
    for the chunk, then the confidence of the query obtained. *)
Definition chunk_requests (query : string)
    (turn : list TableCandidate * (string * float)) : list Request :=
  [AskSql (fst turn) query; AskConfidence (fst (snd turn)) query (fst turn)].

(** The lists of tables for which a query was requested, in order: the
    chunks that [generate_sql] handed to [process_schema_chunk]. *)
Definition asked_tables (log : list Request) : list (list TableCandidate) :=
  flat_map (fun request =>
              match request with
              | AskSql tables _ => [tables]
              | _ => []
              end)
           log.

End ServiceLog.

(** ** [SchemaEnricher]: the ignore file

    [fnmatch.fnmatch] is the standard library's; it is a parameter here.
    The ignore file is given by its text as Python's text layer delivers
    it, line ends being line feeds; [None] stands for a missing file.  A
    Python [set] of strings is modelled by a list without repetition; the
    order in which Python enumerates a set is not specified, and nothing
    below depends on it. *)

Module SchemaEnricher.
Import PyStr.

Definition LF : ascii := ascii_of_N 10.

(** [for line in f]: the lines of the text, each with its line feed. *)
Fixpoint file_lines (text : string) : list string :=
  match text with
  | EmptyString => []
  | String c text' =>
      if Ascii.eqb c LF then String c EmptyString :: file_lines text'
      else match file_lines text' with
           | [] => [String c EmptyString]
           | line :: lines => String c line :: lines
           end
  end.

(** [s.add(x)]. *)
Definition set_add (x : string) (s : list string) : list string :=
  if str_in x s then s else (s ++ [x])%list.

Definition _load_ignored_tables (ignore_file : option string) : list string :=
  match ignore_file with
  | None => []
  | Some text =>
      fold_left
        (fun ignored_tables line =>
           let line := strip (hd EmptyString (split "#" line)) in
           match line with
           | EmptyString => ignored_tables
           | _ => set_add line ignored_tables
           end)
        (file_lines text) []
  end.

Section Matching.

Variable fnmatch : string -> string -> bool.

Definition _should_process_table (ignored_tables : list string)
    (table_name : string) : bool :=
  negb (existsb (fun pattern => fnmatch (lower table_name) (lower pattern))
                ignored_tables).

End Matching.

End SchemaEnricher.

(** ** [digest_schema.py]: the default ignore file *)

Module DigestSchema.
Import SchemaEnricher.

Definition default_ignore_lines : list string :=
  [ "# Tables to exclude from natural language SQL processing";
    "# Each line is a pattern (glob-style) matching table names to ignore";
    "# Examples:";
    "# temp_*          # Ignore all tables starting with temp_";
    "# *_backup        # Ignore all tables ending with _backup";
    "# test_table      # Ignore specific table";
    "# *_log*          # Ignore any table containing _log";
    "#";
    "# Lines starting with # are comments" ].

(** The text written: every line above, each followed by a line feed. *)
Definition default_ignore_text : string :=
  String.concat EmptyString
    (map (fun line => line ++ String LF EmptyString) default_ignore_lines).

(** On the ignore file: whether it was created, and the file afterwards. *)
Definition create_default_ignore_file (ignore_file : option string)
    : bool * option string :=
  match ignore_file with
  | None => (true, Some default_ignore_text)
  | Some _ => (false, ignore_file)
  end.

End DigestSchema.

(** ** [VectorStore.find_relevant_tables] *)

Module VectorStore.
Import QueryProcessor.

(** A scored point as [qdrant.search] returns it: the payload stored with
    the table, and the similarity score. *)
Record ScoredPoint : Type := mkScoredPoint
  { payload_table_name : string;
    payload_description : string;
    payload_schema : TableSchema;
    score : float }.

(** The default of [top_k], which is what [process_query] searches with. *)
Definition default_top_k : nat := 3.

(** [search_result] is the answer of [qdrant.search] for the embedding of
    the query and [limit=top_k]. *)
Definition find_relevant_tables (search_result : list ScoredPoint)
    : list TableCandidate :=
  map (fun scored_point =>
         mkCandidate (payload_table_name scored_point)
                     (payload_description scored_point)
                     (payload_schema scored_point)
                     (score scored_point))
      search_result.

End VectorStore.

(** ** The loop of [main] in [chat_interface.py] *)

Module ChatLoop.
Import PyStr.



End ChatLoop.

(** ** Where the text model is exact *)

Module TextScope.
Import PyStr.

(** The characters of ASCII, and the texts made of them.  On such texts
    [lower], [upper], [is_space], [Re.word_ch] and the matching of the
    patterns under [re.IGNORECASE] are those of Python; beyond them Python
    follows the Unicode character database. *)
Definition is_ascii (c : ascii) : bool := (code c <? 128)%N.

Definition ascii_text (s : string) : bool := str_forall is_ascii s.

Definition ascii_names (names : list string) : bool := forallb ascii_text names.

End TextScope.

(** ** Text beyond ASCII

    A Python [str] is a sequence of Unicode code points.  For the
    characters outside ASCII, [str.lower], [str.upper], [\w], [\s] and
    [re.IGNORECASE] follow the Unicode character database, which is not part
    of the program.  This module gives the quoting and the rewrite on texts
    made of ASCII characters and of three other characters, with the data
    CPython has for them:
    - U+0130, capital I with dot above: a letter and a word character; its
      lowercase is [i] followed by U+0307; under [re.IGNORECASE] it matches
      what [i] matches;
    - U+0307, combining dot above: no letter, no word character, no case;
    - U+0345, combining ypogegrammeni: no letter, no word character; its
      uppercase is U+0399, capital iota.
    Texts with other characters are out of scope: [in_scope] is false for
    them, and nothing is stated about them. *)

Module Unicode.
Local Open Scope list_scope.

Definition text : Type := list N.

Definition of_string (s : string) : text :=
  map N_of_ascii (list_ascii_of_string s).

Definition CAPITAL_I_WITH_DOT_ABOVE : N := 304.
Definition COMBINING_DOT_ABOVE : N := 775.
Definition COMBINING_YPOGEGRAMMENI : N := 837.
Definition CAPITAL_IOTA : N := 921.

Definition known (c : N) : bool :=
  (c <? 128)%N
  || (c =? CAPITAL_I_WITH_DOT_ABOVE)%N
  || (c =? COMBINING_DOT_ABOVE)%N
  || (c =? COMBINING_YPOGEGRAMMENI)%N.

Definition in_scope (t : text) : bool := forallb known t.

Definition in_range (lo hi c : N) : bool := (lo <=? c)%N && (c <=? hi)%N.

Definition is_ascii_upper : N -> bool := in_range 65 90.
Definition is_ascii_lower : N -> bool := in_range 97 122.
Definition is_ascii_digit : N -> bool := in_range 48 57.

(** [c.isalpha()]. *)
Definition is_letter (c : N) : bool :=
  is_ascii_upper c || is_ascii_lower c || (c =? CAPITAL_I_WITH_DOT_ABOVE)%N.

(** [c.isspace()], which is also [\s]. *)
Definition is_space (c : N) : bool := in_range 9 13 c || in_range 28 32 c.

(** [\w]. *)
Definition word_ch (c : N) : bool :=
  is_letter c || is_ascii_digit c || (c =? 95)%N.

(** [c.lower()] and [c.upper()]: the full case mappings, which may give
    more than one character. *)
Definition lower_ch (c : N) : text :=
  if is_ascii_upper c then [(c + 32)%N]
  else if (c =? CAPITAL_I_WITH_DOT_ABOVE)%N then [105%N; COMBINING_DOT_ABOVE]
  else [c].

Definition upper_ch (c : N) : text :=
  if is_ascii_lower c then [(c - 32)%N]
  else if (c =? COMBINING_YPOGEGRAMMENI)%N then [CAPITAL_IOTA]
  else [c].

Definition lower (t : text) : text := flat_map lower_ch t.
Definition upper (t : text) : text := flat_map upper_ch t.

Fixpoint text_eqb (a b : text) : bool :=
  match a, b with
  | [], [] => true
  | x :: a', y :: b' => (x =? y)%N && text_eqb a' b'
  | _, _ => false
  end.

(** *** Identifier quoting *)

Definition pg_keywords : list text := map of_string QueryProcessor.pg_keywords.

Definition _needs_quoting (identifier : text) : bool :=
  text_eqb (upper identifier) identifier
  || negb (text_eqb (lower identifier) identifier)
  || existsb (N.eqb 32) identifier
  || existsb (fun c => existsb (N.eqb c) identifier) [46%N; 45%N]
  || existsb (text_eqb (lower identifier)) pg_keywords.

Definition dquote : text := [34%N].

Definition _quote_identifier (identifier : text) : text :=
  if _needs_quoting identifier then dquote ++ identifier ++ dquote
  else identifier.

(** *** [re.sub] with [re.IGNORECASE] *)

(** The lowercase that [re.IGNORECASE] compares by: one character for one
    character. *)
Definition fold (c : N) : N :=
  if is_ascii_upper c then (c + 32)%N
  else if (c =? CAPITAL_I_WITH_DOT_ABOVE)%N then 105%N
  else c.

Definition head_is (p : N -> bool) (t : text) : bool :=
  match t with
  | c :: _ => p c
  | [] => false
  end.

Definition at_boundary (before : bool) (t : text) : bool :=
  xorb before (head_is word_ch t).

Inductive regex : Type :=
| Eps : regex
| Boundary : regex
| Chr (p : N -> bool) : regex
| Seq (r1 r2 : regex) : regex
| Alt (r1 r2 : regex) : regex
| Star (p : N -> bool) : regex
| Group (n : nat) (r : regex) : regex.

Definition Plus (p : N -> bool) : regex := Seq (Chr p) (Star p).

(** A literal under [re.IGNORECASE]. *)
Fixpoint literal_ci (t : text) : regex :=
  match t with
  | [] => Eps
  | l :: t' => Seq (Chr (fun c => (fold c =? fold l)%N)) (literal_ci t')
  end.

Record cursor : Type := mkCursor
  { before : bool; rest : text; groups : list (nat * text) }.

Definition consumed (from to : text) : text :=
  firstn (length from - length to) from.

Fixpoint star_from (p : N -> bool) (k : cursor -> option cursor)
    (b : bool) (t : text) (g : list (nat * text)) : option cursor :=
  match t with
  | c :: t' =>
      if p c then
        match star_from p k (word_ch c) t' g with
        | Some found => Some found
        | None => k (mkCursor b t g)
        end
      else k (mkCursor b t g)
  | [] => k (mkCursor b t g)
  end.

Fixpoint run (r : regex) (k : cursor -> option cursor) (cur : cursor)
    : option cursor :=
  match r with
  | Eps => k cur
  | Boundary => if at_boundary (before cur) (rest cur) then k cur else None
  | Chr p =>
      match rest cur with
      | c :: t' =>
          if p c then k (mkCursor (word_ch c) t' (groups cur)) else None
      | [] => None
      end
  | Seq r1 r2 => run r1 (run r2 k) cur
  | Alt r1 r2 =>
      match run r1 k cur with
      | Some found => Some found
      | None => run r2 k cur
      end
  | Star p => star_from p k (before cur) (rest cur) (groups cur)
  | Group n r1 =>
      run r1
          (fun cur' =>
             k (mkCursor (before cur') (rest cur')
                         ((n, consumed (rest cur) (rest cur')) :: groups cur')))
          cur
  end.

Record MatchObject : Type := mkMatchObject
  { whole : text; captured : list (nat * text) }.

Fixpoint lookup_group (n : nat) (g : list (nat * text)) : text :=
  match g with
  | [] => []
  | (i, t) :: g' => if Nat.eqb i n then t else lookup_group n g'
  end.

Definition group (m : MatchObject) (n : nat) : text :=
  match n with
  | O => whole m
  | S _ => lookup_group n (captured m)
  end.

Definition match_at (r : regex) (b : bool) (t : text)
    : option (MatchObject * text) :=
  match run r Some (mkCursor b t []) with
  | Some cur => Some (mkMatchObject (consumed t (rest cur)) (groups cur), rest cur)
  | None => None
  end.

Fixpoint re_sub_from (r : regex) (repl : MatchObject -> text) (skip : nat)
    (b : bool) (t : text) : text :=
  match t with
  | [] => []
  | c :: t' =>
      match skip with
      | S k => re_sub_from r repl k (word_ch c) t'
      | O =>
          match match_at r b t with
          | Some (m, _) =>
              repl m ++ re_sub_from r repl (length (whole m) - 1) (word_ch c) t'
          | None => c :: re_sub_from r repl 0 (word_ch c) t'
          end
      end
  end.

Definition re_sub (r : regex) (repl : MatchObject -> text) (t : text) : text :=
  re_sub_from r repl 0 false t.

(** *** The table-name rewrite *)

Definition dict : Type := list (text * text).

Fixpoint dict_set (d : dict) (k v : text) : dict :=
  match d with
  | [] => [(k, v)]
  | (k', v') :: d' =>
      if text_eqb k' k then (k', v) :: d' else (k', v') :: dict_set d' k v
  end.

Fixpoint dict_get (d : dict) (k : text) : option text :=
  match d with
  | [] => None
  | (k', v') :: d' => if text_eqb k' k then Some v' else dict_get d' k
  end.

Definition table_case_map (table_names : list text) : dict :=
  fold_left (fun d name => dict_set d (lower name) name) table_names [].

(** [[a-zA-Z_]] and [[a-zA-Z0-9_]] under [re.IGNORECASE]. *)
Definition ident_start (c : N) : bool :=
  is_ascii_lower (fold c) || (c =? 95)%N.
Definition ident_ch (c : N) : bool :=
  is_ascii_lower (fold c) || is_ascii_digit c || (c =? 95)%N.

Definition table_pattern : regex :=
  Seq Boundary
    (Seq
       (Group 1
          (Alt (literal_ci (of_string "FROM"))
          (Alt (literal_ci (of_string "JOIN"))
          (Alt (literal_ci (of_string "UPDATE"))
          (Alt (literal_ci (of_string "INTO"))
                  (literal_ci (of_string "TABLE")))))))
    (Seq (Plus is_space)
    (Seq
       (Group 2 (Seq (Chr ident_start) (Star ident_ch)))
       Boundary))).

Definition replace_table_name (case_map : dict) (m : MatchObject) : text :=
  let keyword := group m 1 in
  let table_name := group m 2 in
  let original_case :=
    match dict_get case_map (lower table_name) with
    | Some name => name
    | None => table_name
    end in
  let quoted_name := _quote_identifier original_case in
  keyword ++ [32%N] ++ quoted_name.

Definition _process_sql_query (sql_query : text) (table_names : list text)
    : text :=
  re_sub table_pattern (replace_table_name (table_case_map table_names))
         sql_query.

End Unicode.

(** * Properties *)

(** ** Characters and strings *)

Module StrFacts.
Import PyStr ScanView.

Lemma all_ascii_spec (p : ascii -> bool) :
  all_ascii p = true -> forall c, p c = true.
Proof.
  intros H c. unfold all_ascii in H. rewrite forallb_forall in H.
  apply H. rewrite <- (ascii_nat_embedding c). apply in_map.
  apply in_seq. pose proof (nat_ascii_bounded c). lia.
Qed.

Lemma lower_ch_moves_upper c : is_upper_ch c = true -> Ascii.eqb (lower_ch c) c = false.
Proof.
  intros H.
  pose proof (all_ascii_spec
    (fun c => implb (is_upper_ch c) (negb (Ascii.eqb (lower_ch c) c)))
    eq_refl c) as F.
  cbv beta in F. rewrite H in F. simpl in F. now apply negb_true_iff.
Qed.

Lemma upper_ch_moves_lower c : is_lower_ch c = true -> Ascii.eqb (upper_ch c) c = false.
Proof.
  intros H.
  pose proof (all_ascii_spec
    (fun c => implb (is_lower_ch c) (negb (Ascii.eqb (upper_ch c) c)))
    eq_refl c) as F.
  cbv beta in F. rewrite H in F. simpl in F. now apply negb_true_iff.
Qed.

Lemma lower_ch_fixes c : is_upper_ch c = false -> lower_ch c = c.
Proof. unfold lower_ch. now intros ->. Qed.

Lemma upper_ch_fixes c : is_lower_ch c = false -> upper_ch c = c.
Proof. unfold upper_ch. now intros ->. Qed.

Lemma lower_fixes s : str_exists is_upper_ch s = false -> lower s = s.
Proof.
  induction s as [|c s IH]; simpl; intros H; [reflexivity|].
  apply orb_false_iff in H as [Hc Hs].
  unfold lower in *. simpl. now rewrite lower_ch_fixes, IH.
Qed.

Lemma upper_fixes s : str_exists is_lower_ch s = false -> upper s = s.
Proof.
  induction s as [|c s IH]; simpl; intros H; [reflexivity|].
  apply orb_false_iff in H as [Hc Hs].
  unfold upper in *. simpl. now rewrite upper_ch_fixes, IH.
Qed.

Lemma lower_moves s : str_exists is_upper_ch s = true -> (lower s =? s) = false.
Proof.
  induction s as [|c s IH]; intros H; [discriminate|].
  apply String.eqb_neq. intros E. unfold lower in E. simpl in E.
  inversion E as [[Ec Es]]. simpl in H.
  destruct (is_upper_ch c) eqn:Hc.
  - apply lower_ch_moves_upper in Hc. rewrite Ec, Ascii.eqb_refl in Hc. discriminate.
  - simpl in H. specialize (IH H). apply String.eqb_neq in IH. now apply IH.
Qed.

Lemma upper_moves s : str_exists is_lower_ch s = true -> (upper s =? s) = false.
Proof.
  induction s as [|c s IH]; intros H; [discriminate|].
  apply String.eqb_neq. intros E. unfold upper in E. simpl in E.
  inversion E as [[Ec Es]]. simpl in H.
  destruct (is_lower_ch c) eqn:Hc.
  - apply upper_ch_moves_lower in Hc. rewrite Ec, Ascii.eqb_refl in Hc. discriminate.
  - simpl in H. specialize (IH H). apply String.eqb_neq in IH. now apply IH.
Qed.

Lemma str_exists_letter s :
  str_exists is_letter_ch s = str_exists is_upper_ch s || str_exists is_lower_ch s.
Proof.
  induction s as [|c s IH]; simpl; [reflexivity|].
  rewrite IH. unfold is_letter_ch.
  destruct (is_upper_ch c), (is_lower_ch c), (str_exists is_upper_ch s); reflexivity.
Qed.

End StrFacts.

(** ** Identifier quoting *)

Module QuotingFacts.
Import PyStr QueryProcessor TextScope StrFacts.

(** C5, as amended.  For an identifier made of ASCII characters: with an
    uppercase letter, or with a lowercase form that is a reserved word, it
    needs quoting; with at least one lowercase letter, no uppercase letter,
    no space, no dot, no hyphen, and not being a reserved word, it does
    not. *)
Theorem needs_quoting_cases (identifier : string) :
  ascii_text identifier = true ->
  (str_exists is_upper_ch identifier = true ->
   _needs_quoting identifier = true) /\
  (str_in (lower identifier) pg_keywords = true ->
   _needs_quoting identifier = true) /\
  (str_exists is_lower_ch identifier = true ->
   str_exists is_upper_ch identifier = false ->
   str_in (lower identifier) pg_keywords = false ->
   contains " " identifier = false ->
   contains "." identifier = false ->
   contains "-" identifier = false ->
   _needs_quoting identifier = false).
Proof.
  intros _. unfold _needs_quoting. repeat split.
  - intros H. rewrite (lower_moves _ H). simpl. now rewrite orb_true_r.
  - intros ->. now rewrite orb_true_r.
  - intros Hl Hu Hk Hs Hd Hh.
    rewrite (upper_moves _ Hl), (lower_fixes _ Hu) in *.
    rewrite String.eqb_refl, Hk, Hs. simpl. now rewrite Hd, Hh.
Qed.

Lemma needs_quoting_cases_witness :
  _needs_quoting "Employee_Records" = true /\
  _needs_quoting "Order" = true /\
  _needs_quoting "employee_records" = false.
Proof.
  destruct (needs_quoting_cases "Employee_Records" eq_refl) as [H1 _].
  destruct (needs_quoting_cases "Order" eq_refl) as [_ [H2 _]].
  destruct (needs_quoting_cases "employee_records" eq_refl) as [_ [_ H3]].
  split; [|split].
  - apply H1. reflexivity.
  - apply H2. reflexivity.
  - apply H3; reflexivity.
Defined.

(** C5 as stated fails for an identifier without letters: [_123] is made
    of ASCII characters, has no uppercase letter, is a single word and is not
    reserved, yet it needs quoting. *)
Lemma needs_quoting_letterless_counterexample :
  ~ (forall identifier,
       ascii_text identifier = true ->
       str_exists is_upper_ch identifier = false ->
       str_in (lower identifier) pg_keywords = false ->
       contains " " identifier = false ->
       contains "." identifier = false ->
       contains "-" identifier = false ->
       _needs_quoting identifier = false).
Proof.
  intros H.
  specialize (H "_123" eq_refl eq_refl eq_refl eq_refl eq_refl eq_refl).
  vm_compute in H. discriminate H.
Qed.

(** C10, as amended.  A non-empty identifier made of ASCII characters, none
    of them a letter, equals its own uppercase form, so it needs quoting and
    is wrapped in double quotes. *)
Theorem letterless_identifier_quoted (identifier : string) :
  ascii_text identifier = true ->
  identifier <> EmptyString ->
  str_exists is_letter_ch identifier = false ->
  upper identifier = identifier /\
  _needs_quoting identifier = true /\
  _quote_identifier identifier = dquote ++ identifier ++ dquote.
Proof.
  intros _ _ H. rewrite str_exists_letter in H. apply orb_false_iff in H as [_ Hl].
  assert (U : upper identifier = identifier) by now apply upper_fixes.
  assert (N : _needs_quoting identifier = true).
  { unfold _needs_quoting. now rewrite U, String.eqb_refl. }
  unfold _quote_identifier. now rewrite N.
Qed.

Lemma letterless_identifier_quoted_witness :
  upper "_123" = "_123" /\
  _needs_quoting "_123" = true /\
  _quote_identifier "_123" = dquote ++ "_123" ++ dquote.
Proof.
  apply (letterless_identifier_quoted "_123").
  - reflexivity.
  - discriminate.
  - reflexivity.
Defined.

(** C10 as stated fails beyond ASCII.  The identifier made of an underscore
    and the combining mark U+0345 is not empty and has no letter, but its
    uppercase form differs from it, since [upper] turns U+0345 into a capital
    iota; it has no character that [lower] changes, no space, dot or hyphen,
    and is not reserved: it does not need quoting. *)
Lemma letterless_unquoted_counterexample :
  ~ (forall identifier : Unicode.text,
       Unicode.in_scope identifier = true ->
       identifier <> [] ->
       existsb Unicode.is_letter identifier = false ->
       Unicode._needs_quoting identifier = true).
Proof.
  intros H.
  assert (N : [95%N; Unicode.COMBINING_YPOGEGRAMMENI] <> []) by discriminate.
  specialize (H [95%N; Unicode.COMBINING_YPOGEGRAMMENI] eq_refl N eq_refl).
  vm_compute in H. discriminate H.
Qed.

End QuotingFacts.

(** ** Chunk planning *)

Module PlanFacts.
Import QueryProcessor.
Local Open Scope nat_scope.
Local Open Scope list_scope.

Section Slices.

Context {A : Type}.
Variable k : nat.
Hypothesis k_pos : 0 < k.

Lemma firstn_add (a b : nat) (l : list A) :
  firstn (a + b) l = firstn a l ++ firstn b (skipn a l).
Proof.
  revert l. induction a as [|a IH]; intros l; [reflexivity|].
  destruct l as [|x l]; simpl.
  - now rewrite firstn_nil.
  - now rewrite IH.
Qed.

Lemma slice_step (l : list A) (i : nat) :
  slice l i (i + k) = firstn k (skipn i l).
Proof. unfold slice. f_equal. lia. Qed.

Lemma slices_concat (l : list A) (m : nat) :
  concat (map (fun i => slice l i (i + k)) (map (fun j => 0 + j * k) (seq 0 m)))
  = firstn (m * k) l.
Proof.
  induction m as [|m IH]; [reflexivity|].
  rewrite seq_S, !map_app, concat_app, IH. simpl.
  rewrite app_nil_r, slice_step.
  replace (k + m * k) with (m * k + k) by lia.
  now rewrite firstn_add.
Qed.

Lemma range_count (n : nat) :
  0 < n -> (n - 0 - 1) / k * k <= n - 1 /\ n <= ((n - 0 - 1) / k + 1) * k.
Proof.
  intros Hn. rewrite Nat.sub_0_r.
  pose proof (Nat.div_mod_eq (n - 1) k) as E.
  pose proof (Nat.mod_upper_bound (n - 1) k ltac:(lia)) as B.
  nia.
Qed.

Lemma slice_length (l : list A) (j : nat) :
  length (slice l (0 + j * k) (0 + j * k + k)) = Nat.min k (length l - j * k).
Proof. rewrite slice_step, length_firstn, length_skipn. reflexivity. Qed.

Lemma sliced_plan (l : list A) :
  0 < length l ->
  let chunks := map (fun i => slice l i (i + k)) (py_range 0 (length l) k) in
  concat chunks = l /\
  exists full last,
    chunks = full ++ [last] /\
    Forall (fun c => length c = k) full /\
    1 <= length last <= k.
Proof.
  intros Hn chunks. subst chunks. unfold py_range.
  destruct (Nat.ltb_spec 0 (length l)) as [_|]; [|lia].
  destruct (range_count (length l) Hn) as [Hlo Hhi].
  set (m := (length l - 0 - 1) / k) in *.
  split.
  - rewrite slices_concat. apply firstn_all2. exact Hhi.
  - exists (map (fun i => slice l i (i + k)) (map (fun j => 0 + j * k) (seq 0 m))),
           (slice l (0 + m * k) (0 + m * k + k)).
    split; [|split].
    + rewrite Nat.add_1_r, seq_S, !map_app. reflexivity.
    + apply Forall_forall. intros c Hc.
      apply in_map_iff in Hc as [i [<- Hi]].
      apply in_map_iff in Hi as [j [<- Hj]].
      apply in_seq in Hj. rewrite slice_length. nia.
    + rewrite slice_length. nia.
Qed.

End Slices.

(** The shape of [plan]: [tables_per_chunk] is
    [max(1, MAX_TOKENS // TOKENS_PER_TABLE) = 5]; a list of at most that many
    candidates gives one chunk holding all of them in order; a longer list
    is cut into consecutive slices that together give back the list, each of
    exactly [tables_per_chunk] tables except the last, which holds between
    one and [tables_per_chunk]; twelve candidates give chunks of sizes 5, 5
    and 2. *)
Lemma plan_shape (A : Type) :
  tables_per_chunk = Nat.max 1 (MAX_TOKENS / TOKENS_PER_TABLE) /\
  tables_per_chunk = 5 /\
  (forall l : list A, length l <= tables_per_chunk -> plan l = [l]) /\
  (forall l : list A, tables_per_chunk < length l ->
     concat (plan l) = l /\
     length (plan l) = (length l + tables_per_chunk - 1) / tables_per_chunk /\
     exists full last,
       plan l = full ++ [last] /\
       Forall (fun c => length c = tables_per_chunk) full /\
       1 <= length last <= tables_per_chunk) /\
  (forall l : list A, length l = 12 -> map (@length A) (plan l) = [5; 5; 2]).
Proof.
  assert (T : tables_per_chunk = 5) by reflexivity.
  split; [reflexivity|]. split; [exact T|]. split; [|split].
  - intros l Hl. unfold plan.
    destruct (Nat.leb_spec (length l) tables_per_chunk); [reflexivity|lia].
  - intros l Hl. unfold plan.
    destruct (Nat.leb_spec (length l) tables_per_chunk) as [|_]; [lia|].
    assert (P : 0 < tables_per_chunk) by (rewrite T; lia).
    assert (N : 0 < length l) by lia.
    destruct (sliced_plan tables_per_chunk P l N) as [C S].
    split; [exact C|]. split; [|exact S].
    rewrite length_map. unfold py_range.
    destruct (Nat.ltb_spec 0 (length l)) as [_|]; [|lia].
    rewrite length_map, length_seq, T.
    pose proof (Nat.div_mod_eq (length l - 0 - 1) 5).
    pose proof (Nat.mod_upper_bound (length l - 0 - 1) 5 ltac:(lia)).
    pose proof (Nat.div_mod_eq (length l + 5 - 1) 5).
    pose proof (Nat.mod_upper_bound (length l + 5 - 1) 5 ltac:(lia)).
    lia.
  - intros l Hl.
    do 13 (destruct l as [|? l]; try discriminate Hl).
    reflexivity.
Qed.

End PlanFacts.

(** ** Table validation *)

Module ValidationFacts.
Import PyStr QueryProcessor StrFacts.

Lemma split_nonempty sep s : split sep s <> [].
Proof.
  destruct s as [|c s]; simpl; [discriminate|].
  destruct (Ascii.eqb c sep); [discriminate|].
  destruct (split sep s); discriminate.
Qed.



Lemma lstrip_spec s :
  exists a, s = a ++ lstrip s /\ str_forall is_space a = true /\
            Re.head_is is_space (lstrip s) = false.
Proof.
  induction s as [|c s [a [E [Ha Hh]]]]; simpl.
  - exists "". auto.
  - destruct (is_space c) eqn:Hc.
    + exists (String c a). simpl. rewrite Hc, Ha, Hh. now rewrite <- E.
    + exists "". simpl. auto.
Qed.

Lemma rstrip_spec s :
  exists b, s = rstrip s ++ b /\ str_forall is_space b = true /\
            forall r c, rstrip s = r ++ String c "" -> is_space c = false.
Proof.
  induction s as [|c s [b [E [Hb Hl]]]]; simpl.
  - exists "". split; [reflexivity|]. split; [reflexivity|].
    intros [|? ?] ? H; discriminate H.
  - destruct (rstrip s) as [|d r'] eqn:R.
    + destruct (is_space c) eqn:Hc.
      * exists (String c b). simpl in *. rewrite Hc, Hb. subst s.
        split; [reflexivity|]. split; [reflexivity|].
        intros [|? ?] ? H; discriminate H.
      * exists b. simpl in *. subst s.
        split; [reflexivity|]. split; [assumption|].
        intros [|? [|? ?]] ? H; simpl in H; inversion H; subst; auto.
    + exists b. rewrite E at 1.
      split; [reflexivity|]. split; [assumption|].
      intros [|e r] x H; simpl in H; inversion H as [[Hc Hr]]; subst.
      eapply Hl. eassumption.
Qed.

Lemma rstrip_head s :
  Re.head_is is_space s = false -> Re.head_is is_space (rstrip s) = false.
Proof.
  destruct s as [|c s]; simpl; [auto|]. intros Hc.
  destruct (rstrip s); simpl; [rewrite Hc|]; auto.
Qed.

(** [strip] removes whitespace at both ends and nothing else. *)
Lemma strip_spec s :
  exists a b,
    s = a ++ strip s ++ b /\
    str_forall is_space a = true /\ str_forall is_space b = true /\
    Re.head_is is_space (strip s) = false /\
    forall r c, strip s = r ++ String c "" -> is_space c = false.
Proof.
  destruct (lstrip_spec s) as [a [Ea [Ha Hh]]].
  destruct (rstrip_spec (lstrip s)) as [b [Eb [Hb Hl]]].
  exists a, b. unfold strip. rewrite <- Eb. repeat split; auto.
  now apply rstrip_head.
Qed.

Section WithService.

Context {World : Type}.
Variable complete : Request -> World -> string * World.


(** The length of the validated list never exceeds that of the input. *)
Lemma validate_tables_length (relevant_tables : list TableCandidate) (w : World) :
  length (fst (validate_tables complete relevant_tables w))
  <= length relevant_tables.
Proof.
  unfold validate_tables, bind, ret.
  destruct (complete (AskRelevant relevant_tables) w) as [content w'].
  simpl. apply filter_length_le.
Qed.

End WithService.


End ValidationFacts.

(** ** Confidence parsing and best-candidate selection *)

Module SelectionFacts.
Import PyStr QueryProcessor ChatInterface.
Local Open Scope list_scope.

(** A confidence that is at most zero is not above zero. *)
Lemma at_most_zero_not_above (c : float) :
  PrimFloat.leb c 0 = true -> PrimFloat.ltb 0 c = false.
Proof.
  rewrite leb_spec, ltb_spec.
  replace (Prim2SF 0) with (S754_zero false) by reflexivity.
  destruct (Prim2SF c) as [s|s| |s m e]; try destruct s; cbv; congruence.
Qed.

(** No confidence is strictly greater than itself. *)
Lemma confidence_not_above_itself (c : float) : PrimFloat.ltb c c = false.
Proof.
  rewrite ltb_spec. unfold SFltb, SFcompare.
  destruct (Prim2SF c) as [s|s| |s m e]; try destruct s; try reflexivity;
    rewrite Z.compare_refl, Pos.compare_refl; reflexivity.
Qed.

Lemma keep_best_not_above (state : option string * float) q c :
  PrimFloat.ltb (snd state) c = false -> keep_best state q c = state.
Proof. unfold keep_best. now intros ->. Qed.

Lemma keep_best_above (state : option string * float) q c :
  PrimFloat.ltb (snd state) c = true -> keep_best state q c = (Some q, c).
Proof. unfold keep_best. now intros ->. Qed.

Lemma select_best_snoc l q c :
  select_best (l ++ [(q, c)]) = keep_best (select_best l) q c.
Proof. unfold select_best. now rewrite fold_left_app. Qed.

(** The selected candidate strictly exceeded the best of everything before
    it, and nothing after it is strictly greater. *)
Lemma select_best_winner l q :
  fst (select_best l) = Some q ->
  exists l1 c l2,
    l = l1 ++ (q, c) :: l2 /\
    select_best l = (Some q, c) /\
    PrimFloat.ltb (snd (select_best l1)) c = true /\
    Forall (fun pc => PrimFloat.ltb c (snd pc) = false) l2.
Proof.
  induction l as [|[q0 c0] l IH] using rev_ind; [discriminate|].
  rewrite select_best_snoc.
  destruct (PrimFloat.ltb (snd (select_best l)) c0) eqn:Hlt.
  - rewrite keep_best_above by assumption. simpl. intros H.
    inversion H; subst. exists l, c0, []. auto.
  - rewrite keep_best_not_above by assumption. intros H.
    destruct (IH H) as [l1 [c [l2 [E [S [W F]]]]]].
    exists l1, c, (l2 ++ [(q0, c0)]).
    split; [subst l; now rewrite <- app_assoc|]. split; [assumption|].
    split; [assumption|]. apply Forall_app. split; [assumption|].
    constructor; [|constructor]. simpl. rewrite S in Hlt. exact Hlt.
Qed.

(** As long as no confidence is above zero the loop state stays put. *)
Lemma select_best_stays l :
  Forall (fun pc => PrimFloat.ltb 0 (snd pc) = false) l ->
  select_best l = (None, 0%float).
Proof.
  unfold select_best. induction 1 as [|[q c] l Hc _ IH]; [reflexivity|].
  simpl in *. unfold keep_best at 2. simpl. now rewrite Hc.
Qed.

(** No query is selected exactly when no confidence is above zero. *)
Lemma select_best_none l :
  fst (select_best l) = None <->
  Forall (fun pc => PrimFloat.ltb 0 (snd pc) = false) l.
Proof.
  split; [|intros H; now rewrite select_best_stays].
  induction l as [|[q0 c0] l IH] using rev_ind; [constructor|].
  rewrite select_best_snoc. unfold keep_best.
  destruct (PrimFloat.ltb (snd (select_best l)) c0) eqn:Hlt; [discriminate|].
  intros H. specialize (IH H). apply Forall_app. split; [assumption|].
  constructor; [|constructor]. simpl.
  now rewrite (select_best_stays l IH) in Hlt.
Qed.

Section WithService.

Context {World : Type}.
Variable complete : Request -> World -> string * World.
Variable py_float : string -> option float.

(** C9.  The response, stripped, is given to [float]; when that raises
    [ValueError] the confidence is 0.0, and otherwise it is the parsed
    number.  Either way a confidence is returned. *)
Theorem confidence_parse_failure_is_zero (sql_query original_query : string)
    (tables : list TableCandidate) (w : World) :
  let content := fst (complete (AskConfidence sql_query original_query tables) w) in
  (py_float (strip content) = None ->
   fst (evaluate_query_confidence complete py_float
          sql_query original_query tables w) = 0%float) /\
  (forall x, py_float (strip content) = Some x ->
   fst (evaluate_query_confidence complete py_float
          sql_query original_query tables w) = x).
Proof.
  intros content. subst content.
  unfold evaluate_query_confidence, bind, ret.
  destruct (complete _ w) as [content w']. simpl.
  split; [intros ->|intros x ->]; reflexivity.
Qed.

(** The loop of [generate_sql] produces the candidates of [run_chunks] and
    folds [keep_best] over them. *)
Lemma for_chunks_run query validated starts state (w : World) :
  for_chunks complete py_float query validated starts state w
  = let (candidates, w') :=
      run_chunks complete py_float query
        (map (fun i => slice validated i (i + tables_per_chunk)) starts) w in
    (fold_left (fun st pc => keep_best st (fst pc) (snd pc)) candidates state, w').
Proof.
  revert state w. induction starts as [|i starts IH]; intros state w; [reflexivity|].
  cbn [for_chunks run_chunks map]. unfold bind.
  destruct (process_schema_chunk _ _ _ w) as [q w1].
  destruct (evaluate_query_confidence _ _ _ _ _ w1) as [c w2].
  rewrite IH.
  destruct (run_chunks _ _ _ _ w2) as [cs w3]. reflexivity.
Qed.

(** [generate_sql] works through the chunks of [plan]: a single chunk is
    returned unscored, several are scored and the best is selected. *)
Lemma generate_sql_by_plan query relevant_tables (w : World) :
  let vw := validate_tables complete relevant_tables w in
  generate_sql complete py_float query relevant_tables w
  = if (length (fst vw) <=? tables_per_chunk)%nat then
      let (sql, w') := process_schema_chunk complete (fst vw) query (snd vw) in
      (Some sql, w')
    else
      let (candidates, w') :=
        run_chunks complete py_float query (plan (fst vw)) (snd vw) in
      (fst (select_best candidates), w').
Proof.
  intros vw. subst vw. unfold generate_sql, bind at 1.
  destruct (validate_tables complete relevant_tables w) as [validated w1]. simpl.
  unfold plan. destruct (length validated <=? tables_per_chunk)%nat.
  - unfold bind, ret. now destruct (process_schema_chunk _ _ _ w1).
  - unfold bind, ret. rewrite for_chunks_run.
    destruct (run_chunks _ _ _ _ w1) as [cs w2]. reflexivity.
Qed.


(** With several chunks, [generate_sql] returns [None] exactly when no
    chunk's confidence is above zero. *)
Lemma generate_sql_none query relevant_tables (w : World) :
  let vw := validate_tables complete relevant_tables w in
  tables_per_chunk < length (fst vw) ->
  fst (generate_sql complete py_float query relevant_tables w) = None <->
  Forall (fun pc => PrimFloat.ltb 0 (snd pc) = false)
         (fst (run_chunks complete py_float query (plan (fst vw)) (snd vw))).
Proof.
  intros vw Hlen. rewrite generate_sql_by_plan. fold vw.
  destruct (Nat.leb_spec (length (fst vw)) tables_per_chunk) as [|_]; [lia|].
  destruct (run_chunks _ _ _ _ (snd vw)) as [cs w2]. simpl.
  apply select_best_none.
Qed.

(** [process_query] turns a missing query into a failure. *)
Lemma process_query_without_sql query relevant_tables (w : World) :
  relevant_tables <> [] ->
  fst (generate_sql complete py_float query relevant_tables w) = None ->
  fst (process_query complete py_float query relevant_tables w)
    = Failed "Failed to generate SQL query".
Proof.
  intros N G. unfold process_query.
  destruct relevant_tables as [|t ts]; [contradiction|].
  unfold bind, ret.
  destruct (generate_sql complete py_float query (t :: ts) w) as [sql w'].
  simpl in G. now subst sql.
Qed.

(** C4.  With several chunks, when every chunk's confidence is at most
    zero, and more generally when none is above zero, [generate_sql]
    returns [None], and [process_query] then raises and reports that it
    failed to generate a query. *)
Theorem no_confidence_above_zero_fails query relevant_tables (w : World) :
  let vw := validate_tables complete relevant_tables w in
  let scored :=
    fst (run_chunks complete py_float query (plan (fst vw)) (snd vw)) in
  tables_per_chunk < length (fst vw) ->
  Forall (fun pc => PrimFloat.leb (snd pc) 0 = true) scored \/
  Forall (fun pc => PrimFloat.ltb 0 (snd pc) = false) scored ->
  fst (generate_sql complete py_float query relevant_tables w) = None /\
  fst (process_query complete py_float query relevant_tables w)
    = Failed "Failed to generate SQL query".
Proof.
  intros vw scored Hlen Hall.
  assert (A : Forall (fun pc => PrimFloat.ltb 0 (snd pc) = false) scored).
  { destruct Hall as [Hall|Hall]; [|exact Hall].
    eapply Forall_impl; [|exact Hall]. intros pc. apply at_most_zero_not_above. }
  assert (G : fst (generate_sql complete py_float query relevant_tables w) = None)
    by now apply generate_sql_none.
  split; [exact G|]. apply process_query_without_sql; [|exact G].
  intros ->. subst vw.
  pose proof (ValidationFacts.validate_tables_length complete [] w) as L.
  simpl in L. lia.
Qed.

End WithService.

Lemma confidence_parse_failure_is_zero_witness :
  fst (evaluate_query_confidence Fixtures.canned Fixtures.float_of_literal
         "SELECT 1" "how many?" [] ["about 0.9, probably"]) = 0%float /\
  fst (evaluate_query_confidence Fixtures.canned Fixtures.float_of_literal
         "SELECT 1" "how many?" [] ["  0.9 "]) = Fixtures.f0_9.
Proof.
  split.
  - pose proof (confidence_parse_failure_is_zero Fixtures.canned
                  Fixtures.float_of_literal "SELECT 1" "how many?" []
                  ["about 0.9, probably"]) as H.
    cbv zeta in H. destruct H as [H _]. apply H. reflexivity.
  - pose proof (confidence_parse_failure_is_zero Fixtures.canned
                  Fixtures.float_of_literal "SELECT 1" "how many?" [] ["  0.9 "]) as H.
    cbv zeta in H. destruct H as [_ H]. apply H. reflexivity.
Defined.


Lemma no_confidence_above_zero_fails_witness :
  fst (generate_sql Fixtures.canned Fixtures.float_of_literal "count rows"
         Fixtures.twelve_tables
         [Fixtures.all_twelve;
          "SELECT count(*) FROM t1"; "0.0";
          "SELECT count(*) FROM t6"; "unsure";
          "SELECT count(*) FROM t11"; "0.0"]) = None /\
  fst (process_query Fixtures.canned Fixtures.float_of_literal "count rows"
         Fixtures.twelve_tables
         [Fixtures.all_twelve;
          "SELECT count(*) FROM t1"; "0.0";
          "SELECT count(*) FROM t6"; "unsure";
          "SELECT count(*) FROM t11"; "0.0"])
  = Failed "Failed to generate SQL query".
Proof.
  apply (no_confidence_above_zero_fails Fixtures.canned
           Fixtures.float_of_literal "count rows" Fixtures.twelve_tables).
  - vm_compute. lia.
  - left. vm_compute. repeat constructor.
Defined.

End SelectionFacts.

(** ** The scanner *)

Module ScanFacts.
Import PyStr Re QueryProcessor ScanView StrFacts.

(** *** Strings *)

Lemma append_nil_r (s : string) : s ++ "" = s.
Proof. induction s as [|c s IH]; simpl; [reflexivity|now rewrite IH]. Qed.

Lemma append_assoc (a b c : string) : (a ++ b) ++ c = a ++ b ++ c.
Proof. induction a as [|x a IH]; simpl; [reflexivity|now rewrite IH]. Qed.

Lemma length_append (a b : string) :
  String.length (a ++ b) = String.length a + String.length b.
Proof. induction a as [|x a IH]; simpl; [reflexivity|now rewrite IH]. Qed.

Lemma str_map_length f (s : string) :
  String.length (str_map f s) = String.length s.
Proof. induction s as [|x s IH]; simpl; [reflexivity|now rewrite IH]. Qed.

Lemma head_is_app p (a b : string) :
  a <> "" -> head_is p (a ++ b) = head_is p a.
Proof. destruct a; [contradiction|reflexivity]. Qed.

(** *** Character classes *)

Lemma ident_start_word c : ident_start c = true -> word_ch c = true.
Proof.
  unfold ident_start, word_ch. intros H.
  apply orb_true_iff in H as [->| ->]; [reflexivity|apply orb_true_r].
Qed.

Lemma word_not_space c : word_ch c = true -> is_space c = false.
Proof.
  intros H.
  pose proof (all_ascii_spec (fun c => implb (word_ch c) (negb (is_space c)))
                eq_refl c) as F.
  cbv beta in F. rewrite H in F. now apply negb_true_iff.
Qed.

Lemma word_ch_lower c : word_ch (lower_ch c) = word_ch c.
Proof.
  pose proof (all_ascii_spec
                (fun c => Bool.eqb (word_ch (lower_ch c)) (word_ch c)) eq_refl c) as F.
  now apply Bool.eqb_prop.
Qed.

Lemma ident_start_lower c : ident_start (lower_ch c) = ident_start c.
Proof.
  pose proof (all_ascii_spec
                (fun c => Bool.eqb (ident_start (lower_ch c)) (ident_start c))
                eq_refl c) as F.
  now apply Bool.eqb_prop.
Qed.

Lemma lower_ch_idem c : lower_ch (lower_ch c) = lower_ch c.
Proof.
  pose proof (all_ascii_spec
                (fun c => Ascii.eqb (lower_ch (lower_ch c)) (lower_ch c)) eq_refl c) as F.
  now apply Ascii.eqb_eq.
Qed.

Lemma str_forall_word_lower s : str_forall word_ch (lower s) = str_forall word_ch s.
Proof.
  induction s as [|c s IH]; simpl; [reflexivity|].
  unfold lower in *. now rewrite word_ch_lower, IH.
Qed.

Lemma head_ident_start_lower s : head_is ident_start (lower s) = head_is ident_start s.
Proof. destruct s; simpl; [reflexivity|apply ident_start_lower]. Qed.

Lemma lower_length s : String.length (lower s) = String.length s.
Proof. apply str_map_length. Qed.

Lemma lower_empty s : lower s = "" -> s = "".
Proof. destruct s; [reflexivity|discriminate]. Qed.

(** *** [span] *)

Lemma span_sound p s a b :
  span p s = (a, b) ->
  s = a ++ b /\ str_forall p a = true /\ head_is p b = false.
Proof.
  revert a b. induction s as [|c s IH]; simpl; intros a b E.
  - inversion E. auto.
  - destruct (p c) eqn:Hc.
    + destruct (span p s) as [a' b'] eqn:S. inversion E; subst.
      destruct (IH _ _ eq_refl) as [-> [Ha Hb]]. simpl. now rewrite Hc, Ha.
    + inversion E; subst. simpl. auto.
Qed.

Lemma span_run p (a b : string) :
  str_forall p a = true -> head_is p b = false -> span p (a ++ b) = (a, b).
Proof.
  intros Ha Hb. induction a as [|c a IH]; simpl in *.
  - destruct b as [|d b]; [reflexivity|]. simpl in *. now rewrite Hb.
  - apply andb_true_iff in Ha as [Hc Ha]. now rewrite Hc, IH.
Qed.

Lemma span_through p (a b : string) :
  str_forall p a = true ->
  span p (a ++ b) = (a ++ fst (span p b), snd (span p b)).
Proof.
  intros Ha. induction a as [|c a IH]; simpl in *.
  - now destruct (span p b).
  - apply andb_true_iff in Ha as [Hc Ha]. now rewrite Hc, IH.
Qed.

Lemma span_stop p s : head_is p s = false -> span p s = ("", s).
Proof. intros H. exact (span_run p "" s eq_refl H). Qed.

(** *** Keywords *)

Lemma match_ci_sound kw s g r :
  match_ci kw s = Some (g, r) -> s = g ++ r /\ lower g = lower kw.
Proof.
  revert s g r. induction kw as [|l kw IH]; simpl; intros s g r E.
  - inversion E. auto.
  - destruct s as [|c s]; [discriminate|].
    unfold same_letter in E.
    destruct (Ascii.eqb_spec (lower_ch c) (lower_ch l)) as [Hc|]; [|discriminate].
    destruct (match_ci kw s) as [[g' r']|] eqn:M; [|discriminate].
    inversion E; subst. destruct (IH _ _ _ M) as [-> Hg].
    unfold lower in *. simpl. now rewrite Hc, Hg.
Qed.

Lemma match_ci_complete kw g r :
  lower g = lower kw -> match_ci kw (g ++ r) = Some (g, r).
Proof.
  revert g. induction kw as [|l kw IH]; intros g E.
  - apply lower_empty in E. now subst.
  - destruct g as [|c g]; [discriminate|].
    unfold lower in E. simpl in E. inversion E as [[Hc Hg]].
    simpl. unfold same_letter. rewrite Hc, Ascii.eqb_refl. now rewrite (IH g Hg).
Qed.

Lemma keyword_is_word g : is_keyword g = true -> str_forall word_ch g = true /\ g <> "".
Proof.
  unfold is_keyword. intros H. apply existsb_exists in H as [kw [Hin E]].
  apply String.eqb_eq in E.
  assert (K : str_forall word_ch (lower kw) = true /\ lower kw <> "").
  { simpl in Hin. repeat (destruct Hin as [<-|Hin]; [split; [reflexivity|discriminate]|]).
    contradiction. }
  destruct K as [K1 K2]. rewrite <- E in K1, K2.
  rewrite str_forall_word_lower in K1. split; [exact K1|].
  intros ->. now apply K2.
Qed.

(** *** The matcher reads tokens *)

Lemma tail_is_operand g1 r : match_tail g1 r = operand_tokens g1 r.
Proof.
  unfold match_tail, operand_tokens.
  destruct (span is_space r) as [ws r2]. destruct ws as [|w ws]; [reflexivity|].
  destruct r2 as [|c r2]; [reflexivity|].
  destruct (ident_start c) eqn:Hc.
  - simpl span. rewrite (ident_start_word _ Hc).
    change (span ident_ch r2) with (span word_ch r2).
    destruct (span word_ch r2) as [tl r3] eqn:S.
    destruct (span_sound _ _ _ _ S) as [_ [Htl Hr3]].
    simpl head_is. rewrite Hc. unfold at_boundary. rewrite Hr3.
    replace (ends_in_word false (String c tl)) with true; [reflexivity|].
    simpl. generalize (ident_start_word _ Hc). generalize (word_ch c).
    clear - Htl. induction tl as [|x tl IH]; simpl in *; intros b Hb; [congruence|].
    apply andb_true_iff in Htl as [Hx Htl]. now apply IH.
  - simpl span. destruct (word_ch c).
    + destruct (span word_ch r2). simpl. now rewrite Hc.
    + reflexivity.
Qed.

Lemma attempt_is_tokens kw s :
  str_forall word_ch kw = true ->
  (match match_ci kw s with
   | Some (g1, r1) => match_tail g1 r1
   | None => None
   end)
  = let (word, r) := span word_ch s in
    if lower word =? lower kw then operand_tokens word r else None.
Proof.
  intros Hkw. destruct (span word_ch s) as [word r] eqn:S.
  destruct (span_sound _ _ _ _ S) as [Es [Hword Hr]].
  destruct (match_ci kw s) as [[g1 r1]|] eqn:M.
  - destruct (match_ci_sound _ _ _ _ M) as [Eg Hg].
    assert (Wg : str_forall word_ch g1 = true).
    { now rewrite <- str_forall_word_lower, Hg, str_forall_word_lower. }
    rewrite Eg, (span_through _ _ _ Wg) in S.
    destruct (span word_ch r1) as [more r'] eqn:S1. simpl in S.
    inversion S; subst word r'. clear S.
    destruct (span_sound _ _ _ _ S1) as [Er1 [Hmore _]].
    destruct more as [|x more].
    + rewrite append_nil_r, Hg, String.eqb_refl. simpl in Er1. subst r1.
      apply tail_is_operand.
    + replace (lower (g1 ++ String x more) =? lower kw) with false.
      * unfold match_tail. rewrite span_stop; [reflexivity|].
        subst r1. simpl in *. apply andb_true_iff in Hmore as [Hx _].
        now apply word_not_space.
      * symmetry. apply String.eqb_neq. intros E.
        apply (f_equal String.length) in E.
        rewrite <- Hg, !lower_length, length_append in E. simpl in E. lia.
  - destruct (String.eqb_spec (lower word) (lower kw)) as [E|]; [|reflexivity].
    rewrite Es, (match_ci_complete _ _ _ E) in M. discriminate.
Qed.

Lemma alternatives_are_tokens s :
  match_alt keywords s
  = let (word, r) := span word_ch s in
    if is_keyword word then operand_tokens word r else None.
Proof.
  unfold keywords, match_alt.
  rewrite !attempt_is_tokens by reflexivity.
  unfold is_keyword, keywords. simpl existsb.
  destruct (span word_ch s) as [word r].
  destruct (operand_tokens word r);
    destruct (lower word =? lower "FROM"), (lower word =? lower "JOIN"),
             (lower word =? lower "UPDATE"), (lower word =? lower "INTO"),
             (lower word =? lower "TABLE"); reflexivity.
Qed.

(** The matcher that follows the pattern and the token reader agree. *)
Lemma match_here_tokens before s : match_here before s = match_tokens before s.
Proof.
  unfold match_here, match_tokens, at_boundary.
  rewrite alternatives_are_tokens.
  destruct (head_is word_ch s) eqn:H, before; simpl; try reflexivity.
  - rewrite (span_stop _ _ H). reflexivity.
  - rewrite (span_stop _ _ H). reflexivity.
Qed.

Lemma match_tokens_sound before s m rest :
  match_tokens before s = Some (m, rest) ->
  before = false /\
  s = group1 m ++ separator m ++ group2 m ++ rest /\
  is_keyword (group1 m) = true /\
  is_blank (separator m) = true /\
  is_identifier (group2 m) = true /\
  head_is word_ch rest = false.
Proof.
  unfold match_tokens, operand_tokens. destruct before; [discriminate|].
  destruct (span word_ch s) as [word r] eqn:S1.
  destruct (is_keyword word) eqn:K; [|discriminate].
  destruct (span is_space r) as [ws r2] eqn:S2.
  destruct ws as [|w ws]; [discriminate|].
  destruct (span word_ch r2) as [g2 r3] eqn:S3.
  destruct (head_is ident_start g2) eqn:I; [|discriminate].
  intros E. inversion E; subst. simpl.
  destruct (span_sound _ _ _ _ S1) as [-> _].
  destruct (span_sound _ _ _ _ S2) as [-> [Hws _]].
  destruct (span_sound _ _ _ _ S3) as [-> [Hg2 Hr]].
  unfold is_blank, is_identifier. rewrite I, Hg2, Hws, K.
  split; [reflexivity|]. split; [reflexivity|]. split; [reflexivity|].
  split; [reflexivity|]. split; [reflexivity|]. exact Hr.
Qed.

Lemma match_tokens_complete g1 ws g2 rest :
  is_keyword g1 = true ->
  is_blank ws = true ->
  is_identifier g2 = true ->
  head_is word_ch rest = false ->
  match_tokens false (g1 ++ ws ++ g2 ++ rest) = Some (mkMatch g1 ws g2, rest).
Proof.
  intros K B I R. unfold match_tokens, operand_tokens.
  destruct (keyword_is_word _ K) as [Wg _].
  apply andb_true_iff in B as [Nws Hws]. apply negb_true_iff, String.eqb_neq in Nws.
  apply andb_true_iff in I as [Ig Wg2].
  destruct g2 as [|c g2]; [discriminate|]. destruct ws as [|w ws]; [contradiction|].
  rewrite (span_run word_ch g1), K.
  - rewrite (span_run is_space (String w ws)).
    + rewrite (span_run word_ch (String c g2)); auto. now rewrite Ig.
    + exact Hws.
    + simpl in *. apply word_not_space. now apply andb_true_iff in Wg2 as [? _].
  - exact Wg.
  - simpl in *. apply andb_true_iff in Hws as [Hw _].
    destruct (word_ch w) eqn:Ww; [|reflexivity].
    apply word_not_space in Ww. congruence.
Qed.

(** *** The backtracking matcher finds the same match *)

Lemma cursor_eta (cur : cursor) :
  mkCursor (before cur) (rest cur) (groups cur) = cur.
Proof. now destruct cur. Qed.

Lemma consumed_app (g r : string) : consumed (g ++ r) r = g.
Proof.
  unfold consumed. rewrite length_append.
  replace (String.length g + String.length r - String.length r)
    with (String.length g) by lia.
  induction g as [|c g IH]; simpl.
  - now destruct r.
  - now rewrite IH.
Qed.

(** A literal leaves the matcher no choice. *)
Lemma run_literal_ci kw k cur :
  run (literal_ci kw) k cur
  = match match_ci kw (rest cur) with
    | Some (g, r) => k (mkCursor (ends_in_word (before cur) g) r (groups cur))
    | None => None
    end.
Proof.
  revert cur. induction kw as [|l kw IH]; intros cur; simpl.
  - now rewrite cursor_eta.
  - destruct (rest cur) as [|c s]; [reflexivity|].
    destruct (same_letter l c); [|reflexivity].
    rewrite IH. simpl. now destruct (match_ci kw s) as [[g r]|].
Qed.

(** When what follows a greedy repetition cannot start with a character of
    the class, giving characters back never helps: the repetition takes the
    whole run. *)
Lemma star_greedy p k (Q : bool -> Prop) :
  (forall c, p c = true -> Q (word_ch c)) ->
  (forall b s g, Q b -> head_is p s = true -> k (mkCursor b s g) = None) ->
  forall b s g, Q b ->
    star_from p k b s g
    = k (mkCursor (ends_in_word b (fst (span p s))) (snd (span p s)) g).
Proof.
  intros Step Fail b s g. revert b.
  induction s as [|c s IH]; intros b Qb; [reflexivity|].
  simpl. destruct (p c) eqn:Pc; [|reflexivity].
  rewrite (IH _ (Step _ Pc)).
  destruct (span p s) as [a r]. simpl.
  destruct (k (mkCursor (ends_in_word (word_ch c) a) r g)); [reflexivity|].
  apply Fail; [exact Qb|]. simpl. exact Pc.
Qed.

Lemma space_not_ident_start c : is_space c = true -> ident_start c = false.
Proof.
  intros H. destruct (ident_start c) eqn:I; [|reflexivity].
  apply ident_start_word, word_not_space in I. congruence.
Qed.

(** The pattern after the keyword group. *)
Lemma run_tail g1 b r1 g :
  run (Seq (Plus is_space)
         (Seq (Group 2 (Seq (Chr ident_start) (Star ident_ch))) Boundary))
      Some (mkCursor b r1 g)
  = match match_tail g1 r1 with
    | Some (m, r3) =>
        Some (mkCursor (ends_in_word false (group2 m)) r3 ((2, group2 m) :: g))
    | None => None
    end.
Proof.
  unfold match_tail. destruct r1 as [|c s]; [reflexivity|].
  cbn [run Plus rest before groups span].
  destruct (is_space c) eqn:Sc; [|reflexivity].
  rewrite (star_greedy is_space _ (fun _ => True)); [|auto| |exact I].
  - destruct (span is_space s) as [a r2]. cbn [fst snd].
    destruct r2 as [|c2 r2']; [reflexivity|].
    cbn [run rest before groups].
    destruct (ident_start c2) eqn:Ic; [|reflexivity].
    rewrite (star_greedy ident_ch _ (fun b => b = true)).
    + destruct (span ident_ch r2') as [tl r3] eqn:S3. cbn [fst snd].
      cbn [run rest before groups ends_in_word].
      destruct (span_sound _ _ _ _ S3) as [E3 _].
      destruct (at_boundary (ends_in_word (word_ch c2) tl) r3); [|reflexivity].
      cbn [group2]. rewrite E3.
      change (String c2 (tl ++ r3)) with (String c2 tl ++ r3).
      now rewrite consumed_app.
    + intros c' H. exact H.
    + intros b' s' g' -> H. cbn [run rest before groups].
      unfold at_boundary. change (head_is ident_ch s') with (head_is word_ch s') in H.
      now rewrite H.
    + now apply ident_start_word.
  - intros b' s' g' _ H. cbn [run rest before groups].
    destruct s' as [|c' s'']; [reflexivity|]. simpl in H.
    now rewrite (space_not_ident_start _ H).
Qed.

Lemma attempt_sound kw s m r :
  match match_ci kw s with
  | Some (g1, r1) => match_tail g1 r1
  | None => None
  end = Some (m, r) ->
  s = group0 m ++ r.
Proof.
  destruct (match_ci kw s) as [[g1 r1]|] eqn:M; [|discriminate].
  destruct (match_ci_sound _ _ _ _ M) as [-> _].
  unfold match_tail.
  destruct (span is_space r1) as [ws r2] eqn:S2.
  destruct (span_sound _ _ _ _ S2) as [-> _].
  destruct ws as [|w ws]; [discriminate|].
  destruct r2 as [|c r2]; [discriminate|].
  destruct (ident_start c); [|discriminate].
  destruct (span ident_ch r2) as [tl r3] eqn:S3.
  destruct (span_sound _ _ _ _ S3) as [-> _].
  destruct (at_boundary _ r3); [|discriminate].
  intros E. inversion E; subst. unfold group0. cbn [group1 separator group2].
  rewrite !append_assoc. reflexivity.
Qed.

Lemma run_keyword kw b s :
  run (literal_ci kw)
      (fun cur' =>
         run (Seq (Plus is_space)
                (Seq (Group 2 (Seq (Chr ident_start) (Star ident_ch))) Boundary))
             Some
             (mkCursor (before cur') (rest cur')
                       ((1, consumed s (rest cur')) :: groups cur')))
      (mkCursor b s [])
  = match match match_ci kw s with
          | Some (g1, r1) => match_tail g1 r1
          | None => None
          end with
    | Some (m, r3) =>
        Some (mkCursor (ends_in_word false (group2 m)) r3
                       [(2, group2 m); (1, group1 m)])
    | None => None
    end.
Proof.
  rewrite run_literal_ci. cbn [rest before groups].
  destruct (match_ci kw s) as [[g1 r1]|] eqn:M; [|reflexivity].
  destruct (match_ci_sound _ _ _ _ M) as [E _].
  rewrite (run_tail g1). rewrite E, consumed_app.
  unfold match_tail.
  destruct (span is_space r1) as [ws r2]. destruct ws; [reflexivity|].
  destruct r2 as [|c r2]; [reflexivity|].
  destruct (ident_start c); [|reflexivity].
  destruct (span ident_ch r2) as [tl r3].
  now destruct (at_boundary _ r3).
Qed.

Ltac settle_keyword kw s :=
  let H := fresh "Sound" in
  pose proof (attempt_sound kw s) as H;
  destruct (match match_ci kw s with
            | Some (g1, r1) => match_tail g1 r1
            | None => None
            end) as [[? ?]|];
  [ cbn [rest groups]; unfold to_object;
    rewrite (H _ _ eq_refl), consumed_app; reflexivity
  | clear H ].

(** The backtracking matcher and the direct matcher agree on
    [table_pattern]. *)
Lemma match_at_table_pattern b s :
  match_at table_pattern b s
  = match match_here b s with
    | Some (m, r) => Some (to_object m, r)
    | None => None
    end.
Proof.
  unfold match_at, table_pattern, match_here. cbn [run rest before groups].
  destruct (at_boundary b s); [|reflexivity].
  unfold keywords, match_alt. cbv zeta.
  rewrite !(run_keyword _ b s).
  settle_keyword "FROM" s. settle_keyword "JOIN" s. settle_keyword "UPDATE" s.
  settle_keyword "INTO" s. settle_keyword "TABLE" s.
  reflexivity.
Qed.

(** Hence [re.sub] with [table_pattern] is the scan with the direct
    matcher. *)
Lemma re_sub_is_scan repl skip b s :
  re_sub_from table_pattern repl skip b s
  = scan_from (fun m => repl (to_object m)) skip b s.
Proof.
  revert skip b. induction s as [|c s IH]; intros skip b; [reflexivity|].
  cbn [re_sub_from scan_from]. destruct skip as [|skip]; [|apply IH].
  rewrite match_at_table_pattern.
  destruct (match_here b (String c s)) as [[m r]|]; now rewrite IH.
Qed.

(** *** The word flag *)

Lemma ends_in_word_app before (a b : string) :
  ends_in_word before (a ++ b) = ends_in_word (ends_in_word before a) b.
Proof. revert before. induction a as [|c a IH]; intros; simpl; auto. Qed.

Lemma ends_in_word_run before (s : string) :
  str_forall word_ch s = true -> s <> "" -> ends_in_word before s = true.
Proof.
  revert before. induction s as [|c s IH]; intros before H N; [contradiction|].
  simpl in *. apply andb_true_iff in H as [Hc Hs].
  destruct s as [|d s]; [exact Hc|]. apply IH; [exact Hs|discriminate].
Qed.

Lemma ends_in_word_blank before (s : string) :
  is_blank s = true -> ends_in_word before s = false.
Proof.
  unfold is_blank. intros H. apply andb_true_iff in H as [N H].
  apply negb_true_iff, String.eqb_neq in N.
  revert before. induction s as [|c s IH]; intros before; [contradiction|].
  simpl in *. apply andb_true_iff in H as [Hc Hs].
  destruct s as [|d s].
  - simpl. destruct (word_ch c) eqn:W; [|reflexivity].
    apply word_not_space in W. congruence.
  - apply IH; [discriminate|exact Hs].
Qed.

Lemma identifier_nonempty s : is_identifier s = true -> s <> "".
Proof. destruct s; [discriminate|discriminate]. Qed.

Lemma identifier_word s : is_identifier s = true -> str_forall word_ch s = true.
Proof. unfold is_identifier. intros H. now apply andb_true_iff in H as [_ H]. Qed.

Lemma blank_space s : is_blank s = true -> str_forall is_space s = true.
Proof. unfold is_blank. intros H. now apply andb_true_iff in H as [_ H]. Qed.

Lemma match_ends_in_word before s m rest :
  match_tokens before s = Some (m, rest) ->
  group0 m <> "" /\ forall b, ends_in_word b (group0 m) = true.
Proof.
  intros M. destruct (match_tokens_sound _ _ _ _ M) as [_ [_ [K [_ [I _]]]]].
  destruct (keyword_is_word _ K) as [_ N]. unfold group0. split.
  - destruct (group1 m); [contradiction|discriminate].
  - intros b. rewrite !ends_in_word_app.
    apply ends_in_word_run; [now apply identifier_word|now apply identifier_nonempty].
Qed.

(** *** Equations of [re.sub] *)

Section Substitution.

Variable repl : Match -> string.

Local Abbreviation sub := (scan_from repl 0).

Lemma skip_over (a r : string) before :
  scan_from repl (String.length a) before (a ++ r)
  = sub (ends_in_word before a) r.
Proof.
  revert before. induction a as [|c a IH]; intros before; [reflexivity|].
  simpl. apply IH.
Qed.

Lemma sub_none before c s :
  match_tokens before (String c s) = None ->
  sub before (String c s) = String c (sub (word_ch c) s).
Proof.
  intros M. cbn [scan_from]. now rewrite match_here_tokens, M.
Qed.

(** After a match, scanning resumes right behind it. *)
Lemma sub_some before s m rest :
  match_tokens before s = Some (m, rest) ->
  sub before s = repl m ++ sub true rest.
Proof.
  intros M. destruct (match_ends_in_word _ _ _ _ M) as [N W].
  destruct (match_tokens_sound _ _ _ _ M) as [_ [E _]].
  assert (E' : s = group0 m ++ rest).
  { unfold group0. now rewrite !append_assoc. }
  destruct s as [|c s]; [destruct (group0 m); [contradiction|discriminate]|].
  cbn [scan_from]. rewrite match_here_tokens, M. f_equal.
  destruct (group0 m) as [|d g] eqn:G; [contradiction|].
  simpl in E'. inversion E' as [[Ec Es]]. subst d.
  cbn [String.length].
  replace (S (String.length g) - 1) with (String.length g) by lia.
  rewrite skip_over.
  f_equal. exact (W false).
Qed.

(** Inside a word nothing matches. *)
Lemma sub_word (a r : string) :
  str_forall word_ch a = true -> sub true (a ++ r) = a ++ sub true r.
Proof.
  induction a as [|c a IH]; intros H; [reflexivity|].
  simpl in H. apply andb_true_iff in H as [Hc Ha].
  change (String c a ++ r) with (String c (a ++ r)).
  rewrite sub_none by reflexivity. rewrite Hc, (IH Ha). reflexivity.
Qed.

Lemma no_match_at_nonword before s :
  head_is word_ch s = false -> match_tokens before s = None.
Proof.
  intros H. unfold match_tokens. destruct before; [reflexivity|].
  now rewrite (span_stop _ _ H).
Qed.

(** Characters that are not word characters are copied. *)
Lemma sub_nonword (a r : string) before :
  str_forall (fun c => negb (word_ch c)) a = true ->
  sub before (a ++ r) = a ++ sub (ends_in_word before a) r.
Proof.
  revert before. induction a as [|c a IH]; intros before H; [reflexivity|].
  simpl in H. apply andb_true_iff in H as [Hc Ha]. apply negb_true_iff in Hc.
  change (String c a ++ r) with (String c (a ++ r)).
  rewrite sub_none by (apply no_match_at_nonword; exact Hc).
  rewrite (IH _ Ha). reflexivity.
Qed.

Lemma spaces_not_words s :
  str_forall is_space s = true -> str_forall (fun c => negb (word_ch c)) s = true.
Proof.
  induction s as [|c s IH]; simpl; [auto|]. intros H.
  apply andb_true_iff in H as [Hc Hs]. rewrite (IH Hs), andb_true_r.
  destruct (word_ch c) eqn:W; [|reflexivity].
  apply word_not_space in W. congruence.
Qed.

Lemma sub_blank (ws r : string) before :
  is_blank ws = true -> sub before (ws ++ r) = ws ++ sub false r.
Proof.
  intros B. rewrite sub_nonword by (apply spaces_not_words, blank_space, B).
  now rewrite (ends_in_word_blank _ _ B).
Qed.

(** Where the text does not start with a word character, the flag does not
    matter. *)
Lemma sub_flag before before' s :
  head_is word_ch s = false -> sub before s = sub before' s.
Proof.
  intros H. destruct s as [|c s]; [reflexivity|].
  now rewrite !sub_none by (apply no_match_at_nonword; exact H).
Qed.

(** A word at which nothing matches is copied whole. *)
Lemma sub_copy_word before (a r : string) :
  str_forall word_ch a = true -> a <> "" ->
  match_tokens before (a ++ r) = None ->
  sub before (a ++ r) = a ++ sub true r.
Proof.
  intros W N M. destruct a as [|c a]; [contradiction|].
  simpl in W. apply andb_true_iff in W as [Wc Wa].
  change (String c a ++ r) with (String c (a ++ r)) in *.
  rewrite sub_none by exact M. rewrite Wc, sub_word by exact Wa. reflexivity.
Qed.

(** **** The text before a reference *)

Lemma ends_in_keyword_app before (a b : string) :
  ends_in_keyword before (a ++ b) = false ->
  ends_in_keyword (ends_in_word before a) b = false.
Proof.
  revert before. induction a as [|c a IH]; intros before H; [exact H|].
  simpl in H. apply orb_false_iff in H as [_ H]. simpl. now apply IH.
Qed.

Lemma span_inside p (s x a b : string) :
  span p s = (a, b) -> b <> "" -> span p (s ++ x) = (a, b ++ x).
Proof.
  intros S N. destruct (span_sound _ _ _ _ S) as [-> [Ha Hb]].
  rewrite append_assoc. apply span_run; [exact Ha|].
  rewrite head_is_app; assumption.
Qed.

(** A match found in a text that a reference can follow is found in the
    same way when more text comes after it. *)
Lemma match_tokens_local before (pre x : string) :
  pre <> "" ->
  ends_in_word before pre = false ->
  ends_in_keyword before pre = false ->
  match_tokens before (pre ++ x)
  = match match_tokens before pre with
    | Some (m, rest) => Some (m, rest ++ x)
    | None => None
    end.
Proof.
  intros N W K. unfold match_tokens. destruct before; [reflexivity|].
  destruct pre as [|c pre']; [contradiction|].
  destruct (span word_ch (String c pre')) as [word r] eqn:S1.
  destruct (span_sound _ _ _ _ S1) as [E1 [Hword Hr]].
  assert (Nr : r <> "").
  { intros ->. rewrite append_nil_r in E1. rewrite E1 in W.
    rewrite ends_in_word_run in W; [discriminate W|exact Hword|].
    rewrite <- E1. discriminate. }
  rewrite (span_inside _ _ x _ _ S1 Nr).
  destruct (is_keyword word) eqn:Kw; [|reflexivity].
  cbn [ends_in_keyword] in K. rewrite S1, Kw in K.
  apply orb_false_iff in K as [K _]. simpl in K.
  assert (Nre : (r =? "") = false) by now apply String.eqb_neq.
  rewrite Nre in K. simpl in K.
  unfold operand_tokens.
  destruct (span is_space r) as [ws r2] eqn:S2.
  destruct (span_sound _ _ _ _ S2) as [E2 [Hws Hr2]].
  assert (Nr2 : r2 <> "").
  { intros ->. rewrite append_nil_r in E2. subst r. congruence. }
  rewrite (span_inside _ _ x _ _ S2 Nr2).
  destruct ws as [|w ws]; [reflexivity|].
  destruct (span word_ch r2) as [g2 r3] eqn:S3.
  destruct (span_sound _ _ _ _ S3) as [E3 [Hg2 Hr3]].
  assert (Nr3 : r3 <> "").
  { intros ->. rewrite append_nil_r in E3. subst r2 r.
    rewrite E1, !ends_in_word_app in W.
    rewrite ends_in_word_run in W; [discriminate W|exact Hg2|exact Nr2]. }
  rewrite (span_inside _ _ x _ _ S3 Nr3).
  now destruct (head_is ident_start g2).
Qed.

(** Scanning a text that a reference can follow, and then the text after
    it, is scanning both together. *)
Lemma sub_cut (pre x : string) before :
  ends_in_word before pre = false ->
  ends_in_keyword before pre = false ->
  sub before (pre ++ x) = sub before pre ++ sub false x.
Proof.
  remember (String.length pre) as n eqn:Hn.
  revert pre before Hn. induction n as [n IH] using lt_wf_ind.
  intros pre before Hn W K.
  destruct pre as [|c pre'].
  { simpl in W. subst before. reflexivity. }
  pose proof (match_tokens_local before (String c pre') x ltac:(discriminate) W K) as L.
  destruct (match_tokens before (String c pre')) as [[m rest]|] eqn:M.
  - rewrite (sub_some _ _ _ _ L), (sub_some _ _ _ _ M), append_assoc. f_equal.
    destruct (match_tokens_sound _ _ _ _ M) as [_ [E _]].
    destruct (match_ends_in_word _ _ _ _ M) as [N Wm].
    assert (E' : String c pre' = group0 m ++ rest).
    { unfold group0. now rewrite !append_assoc. }
    apply (IH (String.length rest)).
    + subst n. rewrite E', length_append.
      destruct (group0 m); [contradiction|simpl; lia].
    + reflexivity.
    + rewrite E', ends_in_word_app, (Wm before) in W. exact W.
    + rewrite E' in K. apply ends_in_keyword_app in K.
      now rewrite (Wm before) in K.
  - change (String c pre' ++ x) with (String c (pre' ++ x)) in *.
    rewrite !sub_none by assumption. simpl. f_equal.
    apply (IH (String.length pre')).
    + subst n. simpl. lia.
    + reflexivity.
    + exact W.
    + simpl in K. now apply orb_false_iff in K as [_ K].
Qed.

(** **** Replacements that keep the keyword in front *)

Hypothesis repl_keeps_keyword : forall m, exists t, repl m = group1 m ++ t.

Lemma sub_head p before s : head_is p (sub before s) = head_is p s.
Proof.
  destruct s as [|c s]; [reflexivity|].
  destruct (match_tokens before (String c s)) as [[m rest]|] eqn:M.
  - rewrite (sub_some _ _ _ _ M).
    destruct (repl_keeps_keyword m) as [t ->].
    destruct (match_tokens_sound _ _ _ _ M) as [_ [E [K _]]].
    destruct (keyword_is_word _ K) as [_ N].
    rewrite E, append_assoc, !head_is_app by assumption. reflexivity.
  - now rewrite sub_none.
Qed.

Lemma head_of_span (x : string) :
  head_is ident_start (fst (span word_ch x)) = head_is ident_start x.
Proof.
  destruct x as [|c x]; [reflexivity|]. simpl.
  destruct (word_ch c) eqn:W.
  - now destruct (span word_ch x).
  - simpl. destruct (ident_start c) eqn:I; [|reflexivity].
    apply ident_start_word in I. congruence.
Qed.

Lemma operand_none_stable word r :
  operand_tokens word r = None -> operand_tokens word (sub true r) = None.
Proof.
  unfold operand_tokens.
  destruct (span is_space r) as [ws r2] eqn:S2.
  destruct (span_sound _ _ _ _ S2) as [E2 [Hws Hr2]].
  destruct ws as [|w ws].
  - intros _. rewrite span_stop; [reflexivity|].
    rewrite sub_head. simpl in E2. now subst r.
  - assert (B : is_blank (String w ws) = true) by (unfold is_blank; now rewrite Hws).
    rewrite E2, (sub_blank _ _ _ B).
    rewrite span_run; [|exact Hws|now rewrite sub_head].
    pose proof (head_of_span r2) as H2.
    pose proof (head_of_span (sub false r2)) as H2'.
    rewrite sub_head in H2'.
    destruct (span word_ch r2) as [g2 r3].
    destruct (span word_ch (sub false r2)) as [g2' r3'].
    simpl in *. rewrite H2, H2'.
    destruct (head_is ident_start r2); [discriminate|reflexivity].
Qed.

(** Where nothing matches before the substitution, nothing matches after. *)
Lemma no_new_match before s :
  match_tokens before s = None -> match_tokens before (sub before s) = None.
Proof.
  intros M. destruct before; [reflexivity|].
  destruct (span word_ch s) as [word r] eqn:S1.
  destruct (span_sound _ _ _ _ S1) as [E1 [Hword Hr]].
  destruct word as [|c word].
  - apply no_match_at_nonword. rewrite sub_head. simpl in E1. now subst r.
  - rewrite E1 in M |- *.
    rewrite sub_copy_word; [|exact Hword|discriminate|exact M].
    rewrite <- E1 in M. unfold match_tokens in M |- *. rewrite S1 in M.
    rewrite span_run; [|exact Hword|now rewrite sub_head].
    destruct (is_keyword (String c word)); [|reflexivity].
    now apply operand_none_stable.
Qed.

End Substitution.

End ScanFacts.

(** ** The table-name rewrite *)

Module RewriteFacts.
Import PyStr Re ScanView TextScope StrFacts ScanFacts QueryProcessor.

(** *** The case map *)

Lemma dict_get_set d k v k' :
  dict_get (dict_set d k v) k' = if k =? k' then Some v else dict_get d k'.
Proof.
  induction d as [|[k0 v0] d IH]; simpl; [reflexivity|].
  destruct (String.eqb_spec k0 k) as [->|N]; simpl.
  - now destruct (k =? k').
  - rewrite IH. destruct (String.eqb_spec k0 k') as [->|N']; [|reflexivity].
    apply not_eq_sym, String.eqb_neq in N. now rewrite N.
Qed.

Lemma find_snoc {A : Type} (f : A -> bool) (l : list A) (x : A) :
  find f (l ++ [x])%list
  = match find f l with
    | Some y => Some y
    | None => if f x then Some x else None
    end.
Proof.
  induction l as [|a l IH]; simpl; [reflexivity|].
  now destruct (f a).
Qed.

(** The map sends a lowercase name to the last known table with that
    lowercase form. *)
Lemma table_case_map_get tables k :
  dict_get (table_case_map tables) k
  = find (fun name => lower name =? k) (rev tables).
Proof.
  unfold table_case_map.
  assert (G : forall d,
             dict_get (fold_left (fun d name => dict_set d (lower name) name)
                         tables d) k
             = match find (fun name => lower name =? k) (rev tables) with
               | Some name => Some name
               | None => dict_get d k
               end).
  { induction tables as [|t tables IH]; intros d; [reflexivity|].
    simpl. rewrite IH, find_snoc, dict_get_set.
    destruct (find _ (rev tables)); [reflexivity|].
    now destruct (lower t =? k). }
  rewrite G. now destruct (find _ (rev tables)).
Qed.

Lemma case_map_sound tables k name :
  dict_get (table_case_map tables) k = Some name ->
  In name tables /\ lower name = k.
Proof.
  rewrite table_case_map_get. intros F. apply find_some in F as [I E].
  split; [now apply in_rev|now apply String.eqb_eq].
Qed.

Lemma case_map_complete tables stored :
  In stored tables ->
  exists name, dict_get (table_case_map tables) (lower stored) = Some name.
Proof.
  intros I. rewrite table_case_map_get.
  destruct (find _ (rev tables)) as [name|] eqn:F; [now exists name|].
  apply in_rev in I. apply (find_none _ _ F stored) in I.
  rewrite String.eqb_refl in I. discriminate I.
Qed.

(** *** Shapes *)

Lemma same_lower_identifier (a b : string) :
  lower a = lower b -> is_identifier b = true -> is_identifier a = true.
Proof.
  unfold is_identifier. intros E H.
  rewrite <- head_ident_start_lower, <- str_forall_word_lower, E.
  now rewrite head_ident_start_lower, str_forall_word_lower.
Qed.

Lemma replace_reference_eq cm m :
  replace_reference cm m
  = group1 m ++ " "
    ++ _quote_identifier match dict_get cm (lower (group2 m)) with
                         | Some name => name
                         | None => group2 m
                         end.
Proof. reflexivity. Qed.

Lemma replace_keeps_keyword cm m :
  exists t, replace_reference cm m = group1 m ++ t.
Proof. rewrite replace_reference_eq. eauto. Qed.

(** The rewrite is the scan with the direct matcher. *)
Lemma process_is_scan sql_query table_names :
  _process_sql_query sql_query table_names
  = scan_from (replace_reference (table_case_map table_names)) 0 false sql_query.
Proof.
  unfold _process_sql_query, re_sub.
  exact (re_sub_is_scan (replace_table_name (table_case_map table_names))
           0 false sql_query).
Qed.

Lemma is_keyword_from kw : lower kw = "from" -> is_keyword kw = true.
Proof. unfold is_keyword. intros ->. reflexivity. Qed.

(** *** References that the scanner leaves alone *)

Lemma no_match_before_quote g1 (y : string) :
  is_keyword g1 = true -> match_tokens false (g1 ++ " " ++ dquote ++ y) = None.
Proof.
  intros K. destruct (keyword_is_word _ K) as [W _].
  unfold match_tokens. rewrite span_run; [|exact W|reflexivity].
  rewrite K. unfold operand_tokens.
  rewrite (span_run is_space " " (dquote ++ y)) by reflexivity.
  rewrite (span_stop word_ch (dquote ++ y)) by reflexivity. reflexivity.
Qed.

Lemma no_match_word_quote name (y : string) before :
  str_forall word_ch name = true ->
  match_tokens before (name ++ dquote ++ y) = None.
Proof.
  intros W. unfold match_tokens. destruct before; [reflexivity|].
  rewrite span_run; [|exact W|reflexivity].
  destruct (is_keyword name); [|reflexivity].
  unfold operand_tokens.
  now rewrite (span_stop is_space (dquote ++ y)) by reflexivity.
Qed.

Section Rewrite.

Variable table_names : list string.

Local Abbreviation case_map := (table_case_map table_names).
Local Abbreviation repl := (replace_reference (table_case_map table_names)).
Local Abbreviation sub := (scan_from (replace_reference (table_case_map table_names)) 0).

(** What a match is replaced by: the keyword, one space, and the quoted
    form of a name that is either the stored name of the identifier or the
    identifier itself. *)
Lemma replacement_name m :
  exists name,
    repl m = group1 m ++ " " ++ _quote_identifier name /\
    lower name = lower (group2 m) /\
    (dict_get case_map (lower name) = Some name \/
     dict_get case_map (lower name) = None /\ name = group2 m).
Proof.
  rewrite replace_reference_eq.
  destruct (dict_get case_map (lower (group2 m))) as [name|] eqn:D.
  - exists name. destruct (case_map_sound _ _ _ D) as [_ E].
    rewrite E. auto.
  - exists (group2 m). rewrite D. auto.
Qed.

(** A reference written the way the rewrite writes it is left as it is. *)
Lemma stable_reference g1 name (r : string) :
  is_keyword g1 = true ->
  is_identifier name = true ->
  head_is word_ch r = false ->
  sub true r = r ->
  dict_get case_map (lower name) = Some name \/
  dict_get case_map (lower name) = None ->
  sub false (g1 ++ " " ++ _quote_identifier name ++ r)
  = g1 ++ " " ++ _quote_identifier name ++ r.
Proof.
  intros K I R S D. destruct (keyword_is_word _ K) as [Wg Ng].
  pose proof (identifier_word _ I) as Wn.
  pose proof (identifier_nonempty _ I) as Nn.
  unfold _quote_identifier. destruct (_needs_quoting name) eqn:Q.
  - rewrite !append_assoc.
    rewrite (sub_copy_word repl);
      [|exact Wg|exact Ng|now apply no_match_before_quote].
    f_equal.
    change (" " ++ dquote ++ name ++ dquote ++ r)
      with ((" " ++ dquote) ++ name ++ dquote ++ r).
    rewrite (sub_nonword repl) by reflexivity.
    change (ends_in_word true (" " ++ dquote)) with false.
    f_equal.
    rewrite (sub_copy_word repl);
      [|exact Wn|exact Nn|now apply no_match_word_quote].
    f_equal. rewrite (sub_nonword repl) by reflexivity.
    change (ends_in_word true dquote) with false.
    f_equal. now rewrite (sub_flag repl false true r R).
  - rewrite (sub_some repl _ _ (mkMatch g1 " " name) r);
      [|now apply match_tokens_complete].
    rewrite S, replace_reference_eq. simpl group1. simpl group2.
    destruct D as [D|D]; rewrite D; unfold _quote_identifier; rewrite Q;
      now rewrite !append_assoc.
Qed.

Lemma sub_idempotent n : forall s before,
  String.length s <= n -> sub before (sub before s) = sub before s.
Proof.
  induction n as [|n IH]; intros s before L.
  - destruct s; [reflexivity|simpl in L; lia].
  - destruct s as [|c s]; [reflexivity|].
    destruct (match_tokens before (String c s)) as [[m rest]|] eqn:M.
    + rewrite (sub_some repl _ _ _ _ M).
      destruct (match_tokens_sound _ _ _ _ M) as [-> [E [K [B [I R]]]]].
      destruct (replacement_name m) as [name [Rn [Ln D]]].
      rewrite Rn, !append_assoc.
      apply stable_reference.
      * exact K.
      * exact (same_lower_identifier _ _ Ln I).
      * now rewrite (sub_head repl (replace_keeps_keyword _)).
      * apply IH. apply (f_equal String.length) in E.
        rewrite !length_append in E. simpl in E, L.
        destruct (keyword_is_word _ K) as [_ Ng].
        destruct (group1 m); [contradiction|simpl in E; lia].
      * destruct D as [D|[D _]]; auto.
    + pose proof (no_new_match repl (replace_keeps_keyword _) _ _ M) as M'.
      rewrite (sub_none repl) in M' |- * by exact M.
      rewrite (sub_none repl) by exact M'. f_equal. apply IH. simpl in L. lia.
Qed.

(** A reference after a text that a reference can follow is replaced on
    its own; the texts before and after it are rewritten as they would be
    alone. *)
Lemma reference_rewritten pre kw ws ident post :
  reference_can_follow pre = true ->
  is_keyword kw = true ->
  is_blank ws = true ->
  is_identifier ident = true ->
  head_is word_ch post = false ->
  _process_sql_query (pre ++ kw ++ ws ++ ident ++ post) table_names
  = _process_sql_query pre table_names
    ++ repl (mkMatch kw ws ident)
    ++ _process_sql_query post table_names.
Proof.
  intros C K B I P. rewrite !process_is_scan.
  unfold reference_can_follow in C. apply andb_true_iff in C as [C1 C2].
  apply negb_true_iff in C1, C2.
  rewrite (sub_cut repl) by assumption. f_equal.
  rewrite (sub_some repl _ _ _ _ (match_tokens_complete _ _ _ _ K B I P)).
  f_equal. now apply sub_flag.
Qed.

End Rewrite.

(** C6, as amended.  For a query and known table names made of ASCII
    characters, rewriting the already rewritten query with the same known
    tables changes nothing. *)
Theorem process_sql_query_idempotent (sql_query : string)
    (table_names : list string) :
  ascii_text sql_query = true ->
  ascii_names table_names = true ->
  _process_sql_query (_process_sql_query sql_query table_names) table_names
  = _process_sql_query sql_query table_names.
Proof.
  intros _ _. rewrite !process_is_scan.
  apply (sub_idempotent table_names (String.length sql_query)). lia.
Qed.

Lemma process_sql_query_idempotent_witness :
  _process_sql_query
    (_process_sql_query "select * from users u join ORDER o on u.id = o.uid"
                        ["Users"; "order"])
    ["Users"; "order"]
  = _process_sql_query "select * from users u join ORDER o on u.id = o.uid"
                       ["Users"; "order"].
Proof.
  apply process_sql_query_idempotent; reflexivity.
Defined.

(** C6 as stated fails beyond ASCII.  With the known tables [i] followed by
    U+0307, and [I], the query [SELECT * FROM] U+0130 is rewritten to
    [SELECT * FROM i] U+0307: under [re.IGNORECASE] the class [[a-zA-Z_]]
    matches U+0130, whose lowercase form is the first table name, which
    needs no quoting.  In the rewritten query the identifier is [i] alone,
    U+0307 being no word character; its lowercase form belongs to the second
    table, so a second pass gives [SELECT * FROM "I"] U+0307. *)
Lemma idempotence_beyond_ascii_counterexample :
  ~ (forall (sql_query : Unicode.text) (table_names : list Unicode.text),
       Unicode.in_scope sql_query = true ->
       forallb Unicode.in_scope table_names = true ->
       Unicode._process_sql_query
         (Unicode._process_sql_query sql_query table_names) table_names
       = Unicode._process_sql_query sql_query table_names).
Proof.
  intros H.
  specialize (H (Unicode.of_string "SELECT * FROM "
                   ++ [Unicode.CAPITAL_I_WITH_DOT_ABOVE])%list
                [[105%N; Unicode.COMBINING_DOT_ABOVE]; [73%N]]
                eq_refl eq_refl).
  vm_compute in H. discriminate H.
Qed.

(** C1, as amended.  In a query and with known table names made of ASCII
    characters: a lowercase bare identifier [ident] that follows the
    keyword [FROM] (in any case, after any non-empty whitespace), where the
    text before the keyword does not end in a word character, nor in one of
    the five keywords followed by nothing but whitespace, and where some
    known table has [ident] as its lowercase form, is replaced by a known
    table name with that lowercase form (the table itself when it is the
    only such one), quoted when it needs quoting; the texts around the
    reference are rewritten independently. *)
Theorem from_reference_uses_stored_case (table_names : list string)
    (pre kw ws ident post stored : string) :
  ascii_text (pre ++ kw ++ ws ++ ident ++ post) = true ->
  ascii_names table_names = true ->
  reference_can_follow pre = true ->
  lower kw = "from" ->
  is_blank ws = true ->
  is_identifier ident = true ->
  lower ident = ident ->
  head_is word_ch post = false ->
  In stored table_names ->
  lower stored = ident ->
  exists name,
    In name table_names /\
    lower name = ident /\
    dict_get (table_case_map table_names) ident = Some name /\
    ((forall other, In other table_names -> lower other = ident ->
                    other = stored) -> name = stored) /\
    _process_sql_query (pre ++ kw ++ ws ++ ident ++ post) table_names
    = _process_sql_query pre table_names
      ++ kw ++ " " ++ _quote_identifier name
      ++ _process_sql_query post table_names.
Proof.
  intros _ _ C K B I L P S E.
  destruct (case_map_complete _ _ S) as [name D]. rewrite E in D.
  destruct (case_map_sound _ _ _ D) as [In_name Ln].
  exists name. split; [exact In_name|]. split; [exact Ln|].
  split; [exact D|]. split; [intros U; now apply U|].
  rewrite (reference_rewritten table_names pre kw ws ident post C
             (is_keyword_from _ K) B I P).
  rewrite replace_reference_eq. simpl group1. simpl group2.
  rewrite L, D. now rewrite !append_assoc.
Qed.

Lemma from_reference_uses_stored_case_witness :
  _process_sql_query "SELECT * FROM employee_records WHERE id = 1"
                     ["Employee_Records"]
  = "SELECT * FROM " ++ dquote ++ "Employee_Records" ++ dquote
    ++ " WHERE id = 1".
Proof.
  destruct (from_reference_uses_stored_case ["Employee_Records"]
              "SELECT * " "FROM" " " "employee_records" " WHERE id = 1"
              "Employee_Records"
              eq_refl eq_refl
              eq_refl eq_refl eq_refl eq_refl eq_refl eq_refl
              (or_introl eq_refl) eq_refl)
    as [name [_ [_ [_ [U E]]]]].
  rewrite U in E.
  - exact E.
  - intros other [<-|[]] _. reflexivity.
Defined.

(** C1 as stated fails when the word before [FROM] is itself one of the
    five keywords, as with a column named [update]: the scanner reads
    [update FROM] as keyword and identifier, quotes [FROM], and leaves the
    table reference after it in the case of the generated text. *)
Lemma from_reference_missed_counterexample :
  let sql_query := "SELECT update FROM employee_records" in
  let rewritten := _process_sql_query sql_query ["Employee_Records"] in
  index 0 "FROM employee_records" sql_query = Some 14 /\
  rewritten
  = "SELECT update " ++ dquote ++ "FROM" ++ dquote ++ " employee_records" /\
  index 0 ("FROM " ++ dquote ++ "Employee_Records" ++ dquote) rewritten = None /\
  index 0 "Employee_Records" rewritten = None.
Proof. vm_compute. repeat split. Qed.

(** C7, as amended.  In a query and with known table names made of ASCII
    characters: an identifier that follows one of the five keywords (in
    any case, after any non-empty whitespace), where the text before the
    keyword does not end in a word character, nor in one of the five
    keywords followed by nothing but whitespace, and whose lowercase form is
    the lowercase form of no known table, keeps its spelling, but is still
    passed through [_quote_identifier]: the reference becomes the keyword,
    one space and the identifier, wrapped in double quotes exactly when the
    identifier needs quoting. *)
Theorem unknown_reference_keeps_spelling (table_names : list string)
    (pre kw ws ident post : string) :
  ascii_text (pre ++ kw ++ ws ++ ident ++ post) = true ->
  ascii_names table_names = true ->
  reference_can_follow pre = true ->
  is_keyword kw = true ->
  is_blank ws = true ->
  is_identifier ident = true ->
  head_is word_ch post = false ->
  (forall name, In name table_names -> lower name <> lower ident) ->
  _process_sql_query (pre ++ kw ++ ws ++ ident ++ post) table_names
  = _process_sql_query pre table_names
    ++ kw ++ " " ++ _quote_identifier ident
    ++ _process_sql_query post table_names /\
  (_needs_quoting ident = false -> _quote_identifier ident = ident) /\
  (_needs_quoting ident = true ->
   _quote_identifier ident = dquote ++ ident ++ dquote).
Proof.
  intros _ _ C K B I P U. split; [|split].
  - rewrite (reference_rewritten table_names pre kw ws ident post C K B I P).
    rewrite replace_reference_eq. simpl group1. simpl group2.
    destruct (dict_get (table_case_map table_names) (lower ident))
      as [name|] eqn:D.
    + destruct (case_map_sound _ _ _ D) as [In_name Ln].
      now destruct (U name In_name).
    + now rewrite !append_assoc.
  - unfold _quote_identifier. now intros ->.
  - unfold _quote_identifier. now intros ->.
Qed.

Lemma unknown_reference_keeps_spelling_witness :
  _process_sql_query "SELECT * FROM orders o JOIN Users u ON o.uid = u.id"
                     ["Customers"]
  = "SELECT * FROM orders o JOIN " ++ dquote ++ "Users" ++ dquote
    ++ " u ON o.uid = u.id".
Proof.
  assert (U : forall name, In name ["Customers"] ->
                           lower name <> lower "Users").
  { intros name [<-|[]]. discriminate. }
  destruct (unknown_reference_keeps_spelling ["Customers"]
              "SELECT * FROM orders o " "JOIN" " " "Users"
              " u ON o.uid = u.id"
              eq_refl eq_refl
              eq_refl eq_refl eq_refl eq_refl eq_refl U) as [E _].
  exact E.
Defined.

(** C7 as stated fails: the unknown identifier [Users] is not left as it
    is, it comes out wrapped in double quotes. *)
Lemma unknown_reference_quoted_counterexample :
  ~ (forall table_names pre kw ws ident post,
       ascii_text (pre ++ kw ++ ws ++ ident ++ post) = true ->
       ascii_names table_names = true ->
       reference_can_follow pre = true ->
       is_keyword kw = true ->
       is_blank ws = true ->
       is_identifier ident = true ->
       head_is word_ch post = false ->
       (forall name, In name table_names -> lower name <> lower ident) ->
       _process_sql_query (pre ++ kw ++ ws ++ ident ++ post) table_names
       = _process_sql_query pre table_names
         ++ kw ++ ws ++ ident
         ++ _process_sql_query post table_names).
Proof.
  intros H.
  specialize (H [] "SELECT * " "FROM" " " "Users" ""
                eq_refl eq_refl
                eq_refl eq_refl eq_refl eq_refl eq_refl).
  assert (U : forall name : string, In name [] -> lower name <> lower "Users")
    by (intros name []).
  specialize (H U). vm_compute in H. discriminate H.
Qed.

End RewriteFacts.


(** ** Worked examples *)

Module Examples.
Import PyStr QueryProcessor ChatInterface.

Example quoting_decisions :
  map _needs_quoting
      ["users"; "Users"; "USERS"; "my table"; "a.b"; "a-b"; "select"; "_123"]
  = [false; true; true; true; true; true; true; true].
Proof. reflexivity. Qed.

Example rewrite_two_references :
  _process_sql_query "select a from   users u join  Orders o on u.id=o.uid"
                     ["users"; "Orders"]
  = "select a from users u join " ++ dquote ++ "Orders" ++ dquote
    ++ " o on u.id=o.uid".
Proof. reflexivity. Qed.

Example rewrite_reserved_table :
  _process_sql_query "UPDATE Order SET total = 0" ["order"]
  = "UPDATE " ++ dquote ++ "order" ++ dquote ++ " SET total = 0".
Proof. reflexivity. Qed.

Example split_keeps_inner_spaces :
  split ","%char (strip "  Customers, Orders ") = ["Customers"; " Orders"].
Proof. reflexivity. Qed.

(** The scenario of the design document: three candidates, of which the
    service keeps two; they fit in one chunk, whose query is returned
    without scoring, cleaned of its fence and trailing comma and with its
    table names in stored case. *)
Example single_chunk_scenario :
  fst (process_query Fixtures.canned Fixtures.float_of_literal
         "list top 5 customers by revenue"
         (map Fixtures.table ["Customers"; "Orders"; "Products"])
         ["Customers,Orders";
          "```sql SELECT c.name, FROM customers c JOIN orders o ON o.cid = c.id ```"])
  = Execute ("SELECT c.name FROM " ++ dquote ++ "Customers" ++ dquote
             ++ " c JOIN " ++ dquote ++ "Orders" ++ dquote
             ++ " o ON o.cid = c.id").
Proof. reflexivity. Qed.

End Examples.

(** * Further properties of the code *)

(** ** Which identifiers stay bare *)

Module BareFacts.
Import PyStr QueryProcessor TextScope StrFacts ScanFacts.

Lemma upper_same_no_lower s : upper s <> s -> str_exists is_lower_ch s = true.
Proof.
  intros N. destruct (str_exists is_lower_ch s) eqn:E; [reflexivity|].
  now apply upper_fixes in E.
Qed.

Lemma lower_same_no_upper s : lower s = s -> str_exists is_upper_ch s = false.
Proof.
  intros E. destruct (str_exists is_upper_ch s) eqn:U; [|reflexivity].
  apply lower_moves in U. apply String.eqb_neq in U. contradiction.
Qed.

Lemma quoted_is_longer s : dquote ++ s ++ dquote <> s.
Proof.
  intros E. apply (f_equal String.length) in E.
  rewrite !length_append in E. simpl in E. lia.
Qed.

(** X1.  For an identifier made of ASCII characters, [_quote_identifier]
    returns the identifier as it is exactly when it has a lowercase letter,
    no uppercase letter, no space, dot or hyphen, and its lowercase form is
    not a reserved word; every other such identifier is returned between
    double quotes, its characters unchanged. *)
Theorem bare_identifiers_exactly (identifier : string) :
  ascii_text identifier = true ->
  (_quote_identifier identifier = identifier <->
   str_exists is_lower_ch identifier = true /\
   str_exists is_upper_ch identifier = false /\
   contains " " identifier = false /\
   contains "." identifier = false /\
   contains "-" identifier = false /\
   str_in (lower identifier) pg_keywords = false) /\
  (_quote_identifier identifier = identifier \/
   _quote_identifier identifier = dquote ++ identifier ++ dquote).
Proof.
  intros _. unfold _quote_identifier.
  split; [|destruct (_needs_quoting identifier); auto].
  destruct (_needs_quoting identifier) eqn:Q; unfold _needs_quoting in Q.
  - split; [intros E; now apply quoted_is_longer in E|].
    intros [Hl [Hu [Hs [Hd [Hh Hk]]]]]. exfalso.
    rewrite (lower_fixes _ Hu) in Q, Hk. rewrite (upper_moves _ Hl) in Q.
    rewrite String.eqb_refl, Hk, Hs in Q. simpl in Q.
    rewrite Hd, Hh in Q. discriminate Q.
  - split; [intros _|reflexivity].
    apply orb_false_iff in Q as [Q Hk].
    apply orb_false_iff in Q as [Q Hp].
    apply orb_false_iff in Q as [Q Hs].
    apply orb_false_iff in Q as [Hu Hl].
    apply negb_false_iff in Hl. apply String.eqb_eq in Hl.
    apply String.eqb_neq in Hu.
    simpl in Hp. rewrite orb_false_r in Hp.
    apply orb_false_iff in Hp as [Hd Hh].
    split; [now apply upper_same_no_lower|].
    split; [now apply lower_same_no_upper|].
    rewrite Hl in Hk. rewrite Hl. auto.
Qed.

Lemma bare_identifiers_exactly_witness :
  _quote_identifier "employee_records" = "employee_records".
Proof.
  apply (proj1 (bare_identifiers_exactly "employee_records" eq_refl)).
  repeat (split; [reflexivity|]). reflexivity.
Defined.

End BareFacts.

(** ** The case map of the table-name rewrite *)

Module CaseMapFacts.
Import PyStr QueryProcessor RewriteFacts.
Local Open Scope list_scope.




End CaseMapFacts.

(** ** What the table-name rewrite leaves alone, and what it rewrites *)

Module ReferenceFacts.
Import PyStr Re QueryProcessor ScanView CleanupView TextScope.
Import StrFacts ScanFacts RewriteFacts.

Lemma scan_without_keyword repl s : forall b,
  mentions_keyword b s = false -> scan_from repl 0 b s = s.
Proof.
  induction s as [|c s IH]; intros b H; [reflexivity|].
  cbn [mentions_keyword] in H. apply orb_false_iff in H as [H1 H2].
  rewrite sub_none.
  - now rewrite (IH _ H2).
  - unfold match_tokens. destruct b; [reflexivity|].
    simpl negb in H1. rewrite andb_true_l in H1.
    destruct (span word_ch (String c s)) as [word r].
    simpl in H1. now rewrite H1.
Qed.

(** X3.  A text made of ASCII characters none of whose words is [FROM],
    [JOIN], [UPDATE], [INTO] or [TABLE] (in any case) is returned as it is,
    whatever the known tables. *)
Theorem keyword_free_text_unchanged (sql_query : string)
    (table_names : list string) :
  ascii_text sql_query = true ->
  mentions_keyword false sql_query = false ->
  _process_sql_query sql_query table_names = sql_query.
Proof.
  intros _ H. rewrite process_is_scan. now apply scan_without_keyword.
Qed.

Lemma keyword_free_text_unchanged_witness :
  _process_sql_query "SELECT Total, fromage  FrOm_x;" ["Total"; "select"]
  = "SELECT Total, fromage  FrOm_x;".
Proof.
  apply keyword_free_text_unchanged; reflexivity.
Defined.

Lemma no_operand_no_match kw ws (post : string) :
  is_keyword kw = true ->
  is_blank ws = true ->
  head_is is_space post = false ->
  head_is ident_start post = false ->
  match_tokens false (kw ++ ws ++ post) = None.
Proof.
  intros K B S I. unfold match_tokens, operand_tokens.
  destruct (keyword_is_word _ K) as [Wk _].
  pose proof (blank_space _ B) as Hws.
  apply andb_true_iff in B as [Nws _].
  apply negb_true_iff, String.eqb_neq in Nws.
  rewrite span_run; [|exact Wk|].
  - rewrite K. rewrite span_run by assumption.
    destruct ws as [|w ws]; [contradiction|].
    pose proof (head_of_span post) as H.
    destruct (span word_ch post) as [g2 r3]. simpl in H.
    now rewrite H, I.
  - destruct ws as [|w ws]; [contradiction|]. simpl.
    simpl in Hws. apply andb_true_iff in Hws as [Hw _].
    destruct (word_ch w) eqn:W; [|reflexivity].
    apply word_not_space in W. congruence.
Qed.

(** X4.  In a query and with known table names made of ASCII characters: a
    keyword that is followed by whitespace and then by something that cannot
    start a bare identifier (an opening parenthesis, a double quote, a
    digit, the end of the text), where the text before the keyword does not
    end in a word character, nor in one of the five keywords followed by
    nothing but whitespace, stays as it is, together with its whitespace;
    the texts before and after are rewritten independently. *)
Theorem keyword_without_identifier_kept (table_names : list string)
    (pre kw ws post : string) :
  ascii_text (pre ++ kw ++ ws ++ post) = true ->
  ascii_names table_names = true ->
  reference_can_follow pre = true ->
  is_keyword kw = true ->
  is_blank ws = true ->
  head_is is_space post = false ->
  head_is ident_start post = false ->
  _process_sql_query (pre ++ kw ++ ws ++ post) table_names
  = _process_sql_query pre table_names
    ++ kw ++ ws ++ _process_sql_query post table_names.
Proof.
  intros _ _ C K B S I. rewrite !process_is_scan.
  set (repl := replace_reference (table_case_map table_names)).
  unfold reference_can_follow in C. apply andb_true_iff in C as [C1 C2].
  apply negb_true_iff in C1, C2.
  rewrite (sub_cut repl) by assumption. f_equal.
  destruct (keyword_is_word _ K) as [Wk Nk].
  rewrite (sub_copy_word repl);
    [|exact Wk|exact Nk|now apply no_operand_no_match].
  f_equal. now apply sub_blank.
Qed.

Lemma keyword_without_identifier_kept_witness :
  _process_sql_query "SELECT * FROM   (SELECT 1 FROM Users) AS u" ["Users"]
  = "SELECT * FROM   (SELECT 1 FROM " ++ dquote ++ "Users" ++ dquote
    ++ ") AS u".
Proof.
  exact (keyword_without_identifier_kept ["Users"]
           "SELECT * " "FROM" "   " "(SELECT 1 FROM Users) AS u"
           eq_refl eq_refl eq_refl eq_refl eq_refl eq_refl eq_refl).
Defined.

(** X5.  In a query and with known table names made of ASCII characters:
    after any of the five keywords (in any case, after any non-empty
    whitespace), where the text before the keyword does not end in a word
    character, nor in one of the five keywords followed by nothing but
    whitespace, a bare identifier whose lowercase form is a key of the case
    map is replaced by the stored name, quoted when it needs quoting,
    whatever the case the identifier is written in; the keyword is kept as
    written and the whitespace becomes one space. *)
Theorem known_reference_any_keyword (table_names : list string)
    (pre kw ws ident post name : string) :
  ascii_text (pre ++ kw ++ ws ++ ident ++ post) = true ->
  ascii_names table_names = true ->
  reference_can_follow pre = true ->
  is_keyword kw = true ->
  is_blank ws = true ->
  is_identifier ident = true ->
  head_is word_ch post = false ->
  dict_get (table_case_map table_names) (lower ident) = Some name ->
  _process_sql_query (pre ++ kw ++ ws ++ ident ++ post) table_names
  = _process_sql_query pre table_names
    ++ (kw ++ " " ++ _quote_identifier name)
    ++ _process_sql_query post table_names.
Proof.
  intros _ _ C K B I P D.
  rewrite (reference_rewritten table_names pre kw ws ident post C K B I P).
  rewrite replace_reference_eq. simpl group1. simpl group2. now rewrite D.
Qed.

Lemma known_reference_any_keyword_witness :
  _process_sql_query "select 1 from a join  ORDER_items o" ["Order_Items"]
  = "select 1 from a join " ++ dquote ++ "Order_Items" ++ dquote ++ " o".
Proof.
  exact (known_reference_any_keyword ["Order_Items"]
           "select 1 from a " "join" "  " "ORDER_items" " o" "Order_Items"
           eq_refl eq_refl
           eq_refl eq_refl eq_refl eq_refl eq_refl eq_refl).
Defined.

End ReferenceFacts.

(** ** The clean-up of a generated query in [process_schema_chunk] *)

Module CleanupFacts.
Import PyStr Re QueryProcessor ScanView CleanupView StrFacts ValidationFacts ScanFacts.

(** *** Code fences *)

Lemma prefix_cons a b (s1 s2 : string) :
  String.prefix (String a s1) (String b s2) = Ascii.eqb a b && String.prefix s1 s2.
Proof.
  simpl. destruct (ascii_dec a b) as [->|N].
  - now rewrite Ascii.eqb_refl.
  - apply Ascii.eqb_neq in N. now rewrite N.
Qed.

Lemma prefix_nil (s : string) : String.prefix "" s = true.
Proof. now destruct s. Qed.

Lemma prefix_app (p s : string) : String.prefix p (p ++ s) = true.
Proof.
  induction p as [|c p IH]; [apply prefix_nil|].
  change (String c p ++ s) with (String c (p ++ s)).
  now rewrite prefix_cons, Ascii.eqb_refl.
Qed.

Lemma prefix_split (p s : string) :
  String.prefix p s = true -> exists t, s = p ++ t.
Proof.
  revert s. induction p as [|c p IH]; intros s H; [now exists s|].
  destruct s as [|d s]; [discriminate H|].
  rewrite prefix_cons in H. apply andb_true_iff in H as [Hc Hp].
  apply Ascii.eqb_eq in Hc. subst d.
  destruct (IH _ Hp) as [t ->]. now exists t.
Qed.

Local Abbreviation unfenced := (replace fence "").

Lemma unfenced_fence (t : string) : unfenced (fence ++ t) = unfenced t.
Proof.
  pose proof (prefix_app fence t) as P.
  unfold replace. change (fence ++ t) with (String "`" (String "`" (String "`" t))) in *.
  cbn [replace_from]. rewrite P. reflexivity.
Qed.

Lemma unfenced_other c (s : string) :
  String.prefix fence (String c s) = false ->
  unfenced (String c s) = String c (unfenced s).
Proof. unfold replace. cbn [replace_from]. now intros ->. Qed.

Lemma unfenced_one (s : string) :
  String.prefix "`" s = false -> String.prefix "`" (unfenced s) = false.
Proof.
  destruct s as [|c s]; [reflexivity|]. intros H.
  rewrite unfenced_other.
  - rewrite prefix_cons, prefix_nil, andb_true_r in *. exact H.
  - unfold fence. rewrite prefix_cons, prefix_nil, andb_true_r in H.
    now rewrite prefix_cons, H.
Qed.

Lemma unfenced_two (s : string) :
  String.prefix "``" s = false -> String.prefix "``" (unfenced s) = false.
Proof.
  destruct s as [|c s]; [reflexivity|]. intros H.
  rewrite prefix_cons in H.
  rewrite unfenced_other.
  - rewrite prefix_cons.
    destruct (Ascii.eqb "`" c); [|reflexivity]. simpl in *.
    now apply unfenced_one.
  - unfold fence. rewrite prefix_cons.
    destruct (Ascii.eqb "`" c); [|reflexivity]. simpl in *.
    destruct s as [|d s]; [reflexivity|].
    rewrite prefix_cons, prefix_nil, andb_true_r in H.
    now rewrite prefix_cons, H.
Qed.

Lemma unfenced_start n : forall s : string,
  String.length s <= n -> String.prefix fence (unfenced s) = false.
Proof.
  induction n as [|n IH]; intros s L.
  - destruct s; [reflexivity|simpl in L; lia].
  - destruct (String.prefix fence s) eqn:P.
    + destruct (prefix_split _ _ P) as [t ->]. rewrite unfenced_fence.
      apply IH. rewrite length_append in L. simpl in L. lia.
    + destruct s as [|c s]; [reflexivity|].
      rewrite unfenced_other by exact P.
      unfold fence in *. rewrite prefix_cons in *.
      destruct (Ascii.eqb "`" c); [|reflexivity]. simpl in *.
      now apply unfenced_two.
Qed.

Lemma unfenced_clean n : forall (s a b : string),
  String.length s <= n -> unfenced s <> a ++ fence ++ b.
Proof.
  induction n as [|n IH]; intros s a b L.
  - destruct s; [|simpl in L; lia]. now destruct a.
  - destruct (String.prefix fence s) eqn:P.
    + destruct (prefix_split _ _ P) as [t ->]. rewrite unfenced_fence.
      apply IH. rewrite length_append in L. simpl in L. lia.
    + destruct s as [|c s]; [now destruct a|].
      pose proof (unfenced_start (S n) (String c s) L) as St.
      rewrite unfenced_other in * by exact P.
      destruct a as [|d a]; intros E.
      * change ("" ++ fence ++ b) with (fence ++ b) in E.
        rewrite E, prefix_app in St. discriminate St.
      * inversion E. apply (IH s a b); [simpl in L; lia|assumption].
Qed.

(** X6.  The query that [process_schema_chunk] goes on to clean of trailing
    commas contains no code fence: after [.replace('```', '')] no three
    consecutive backquotes are left anywhere in the text. *)
Theorem no_code_fence_left (content a b : string) :
  strip (replace fence "" (replace (fence ++ "sql") "" (strip content)))
  <> a ++ fence ++ b.
Proof.
  set (text := replace (fence ++ "sql") "" (strip content)).
  destruct (strip_spec (unfenced text)) as [l [r [E _]]].
  intros F. rewrite F in E.
  apply (unfenced_clean (String.length text) text (l ++ a) (b ++ r)); [lia|].
  rewrite E. now rewrite !append_assoc.
Qed.

(** *** Trailing commas *)

Lemma after_literal_sound lit : forall s r,
  after_literal lit s = Some r -> s = lit ++ r.
Proof.
  induction lit as [|l lit IH]; intros s r H; simpl in H.
  - now inversion H.
  - destruct s as [|c s]; [discriminate H|].
    destruct (Ascii.eqb_spec l c) as [<-|N]; [|discriminate H].
    simpl. f_equal. now apply IH.
Qed.

(** A case-sensitive literal leaves the matcher no choice. *)
Lemma run_literal lit k : forall cur,
  run (literal lit) k cur
  = match after_literal lit (rest cur) with
    | Some r => k (mkCursor (ends_in_word (before cur) lit) r (groups cur))
    | None => None
    end.
Proof.
  induction lit as [|l lit IH]; intros cur; simpl.
  - now rewrite cursor_eta.
  - destruct (rest cur) as [|c s]; [reflexivity|].
    destruct (Ascii.eqb_spec l c) as [<-|N]; [|reflexivity].
    now rewrite IH.
Qed.

Local Abbreviation plain := (fun c => negb (is_space c)).

Lemma literal_fails_on_space w k b (s : string) g :
  head_is plain w = true -> head_is is_space s = true ->
  run (literal w) k (mkCursor b s g) = None.
Proof.
  intros Hw Hs. rewrite run_literal. simpl rest.
  destruct w as [|l w]; [discriminate Hw|].
  destruct s as [|c s]; [discriminate Hs|]. simpl in *.
  destruct (Ascii.eqb_spec l c) as [<-|N]; [|reflexivity].
  rewrite Hs in Hw. discriminate Hw.
Qed.

Lemma str_exists_app p (a b : string) :
  str_exists p (a ++ b) = str_exists p a || str_exists p b.
Proof. induction a as [|c a IH]; simpl; [reflexivity|]. now rewrite IH, orb_assoc. Qed.

Lemma spaces_without_comma (ws : string) :
  str_forall is_space ws = true -> contains "," ws = false.
Proof.
  unfold contains. induction ws as [|c ws IH]; cbn [str_exists str_forall];
    [reflexivity|].
  intros H. apply andb_true_iff in H as [Hc Hws]. rewrite (IH Hws), orb_false_r.
  destruct (Ascii.eqb_spec "," c) as [<-|N]; [discriminate Hc|reflexivity].
Qed.

Lemma re_skip r repl (a : string) : forall b (x : string),
  re_sub_from r repl (String.length a) b (a ++ x)
  = re_sub_from r repl 0 (ends_in_word b a) x.
Proof.
  induction a as [|c a IH]; intros b x; [reflexivity|]. simpl. apply IH.
Qed.

Section Clause.

Variable w1 : string.
Variable w2 : option string.
Hypothesis w1_plain : head_is plain w1 = true.
Hypothesis w2_plain : forall w, w2 = Some w -> head_is plain w = true.
Hypothesis w1_no_comma : contains "," w1 = false.
Hypothesis w2_no_comma : forall w, w2 = Some w -> contains "," w = false.

Lemma clause_fails_on_space k b (s : string) g :
  head_is is_space s = true -> run (clause w1 w2) k (mkCursor b s g) = None.
Proof.
  intros Hs. unfold clause. destruct w2 as [w|].
  - cbn [run]. now apply literal_fails_on_space.
  - now apply literal_fails_on_space.
Qed.

(** [\s*CLAUSE] takes the whole whitespace run and then the clause. *)
Lemma run_spaces_clause k b (s : string) g :
  star_from is_space (run (clause w1 w2) k) b s g
  = match clause_text w1 w2 s with
    | Some (t, r) => k (mkCursor (ends_in_word b t) r g)
    | None => None
    end.
Proof.
  rewrite (star_greedy is_space _ (fun _ => True));
    [|auto|intros; now apply clause_fails_on_space|exact I].
  unfold clause_text, clause.
  destruct (span is_space s) as [ws r]. simpl fst. simpl snd.
  destruct w2 as [w|] eqn:W2.
  - unfold Plus. cbn [run]. rewrite run_literal. cbn [rest before groups].
    destruct (after_literal w1 r) as [r1|]; [|reflexivity].
    cbn [run rest before groups].
    destruct r1 as [|c r1]; [reflexivity|]. cbn [span].
    destruct (is_space c) eqn:Sc; [|reflexivity].
    rewrite (star_greedy is_space _ (fun _ => True));
      [|auto|intros; apply literal_fails_on_space; auto|exact I].
    destruct (span is_space r1) as [a r2]. simpl fst. simpl snd.
    rewrite run_literal. cbn [rest before groups].
    destruct (after_literal w r2) as [r3|]; [|reflexivity].
    rewrite !ends_in_word_app. reflexivity.
  - rewrite run_literal. cbn [rest before groups].
    destruct (after_literal w1 r) as [r1|]; [|reflexivity].
    now rewrite ends_in_word_app.
Qed.

Lemma clause_text_sound (s t r : string) :
  clause_text w1 w2 s = Some (t, r) -> s = t ++ r /\ contains "," t = false.
Proof.
  unfold clause_text, contains.
  destruct (span is_space s) as [ws x] eqn:S1.
  destruct (span_sound _ _ _ _ S1) as [-> [Hws _]].
  apply spaces_without_comma in Hws. unfold contains in Hws.
  destruct (after_literal w1 x) as [r1|] eqn:A1; [|discriminate].
  apply after_literal_sound in A1. subst x.
  destruct w2 as [w|] eqn:W2.
  - destruct (span is_space r1) as [ws2 y] eqn:S2.
    destruct (span_sound _ _ _ _ S2) as [-> [Hws2 _]].
    apply spaces_without_comma in Hws2. unfold contains in Hws2.
    destruct ws2 as [|c ws2]; [discriminate|].
    destruct (after_literal w y) as [r3|] eqn:A2; [|discriminate].
    apply after_literal_sound in A2. subst y.
    intros H. injection H as Et Er. subst t r3.
    change (String c (ws2 ++ w)) with (String c ws2 ++ w).
    split; [now rewrite !append_assoc|].
    pose proof (w2_no_comma w eq_refl) as Hw. unfold contains in *.
    now rewrite !str_exists_app, Hws, w1_no_comma, Hws2, Hw.
  - intros H. injection H as Et Er. subst t r1.
    split; [now rewrite !append_assoc|].
    unfold contains in *. now rewrite !str_exists_app, Hws, w1_no_comma.
Qed.

(** A match of [,(\s*CLAUSE)]: the comma, then the clause as group 1. *)
Lemma match_at_comma b (s : string) :
  match_at (comma_before (clause w1 w2)) b s
  = match s with
    | String c s' =>
        if Ascii.eqb "," c then
          match clause_text w1 w2 s' with
          | Some (t, r) => Some (mkMatchObject (String c t) [(1, t)], r)
          | None => None
          end
        else None
    | EmptyString => None
    end.
Proof.
  unfold match_at, comma_before. cbn [run rest before groups].
  destruct s as [|c s]; [reflexivity|].
  destruct (Ascii.eqb "," c); [|reflexivity].
  rewrite run_spaces_clause.
  destruct (clause_text w1 w2 s) as [[t r]|] eqn:T; [|reflexivity].
  destruct (clause_text_sound _ _ _ T) as [-> _].
  cbn [rest groups]. rewrite consumed_app.
  change (String c (t ++ r)) with (String c t ++ r). now rewrite consumed_app.
Qed.

Lemma drop_commas_copy (t r : string) :
  contains "," t = false ->
  drop_commas w1 w2 (t ++ r) = t ++ drop_commas w1 w2 r.
Proof.
  unfold contains. induction t as [|c t IH]; [reflexivity|].
  cbn [str_exists]. intros H. apply orb_false_iff in H as [Hc Ht].
  change (String c t ++ r) with (String c (t ++ r)). cbn [drop_commas].
  destruct (Ascii.eqb_spec c ",") as [->|N]; [discriminate Hc|].
  simpl. now rewrite IH.
Qed.

Lemma sub_is_drop n : forall (s : string) b,
  String.length s <= n ->
  re_sub_from (comma_before (clause w1 w2)) first_group 0 b s
  = drop_commas w1 w2 s.
Proof.
  induction n as [|n IH]; intros s b L.
  - destruct s; [reflexivity|simpl in L; lia].
  - destruct s as [|c s]; [reflexivity|].
    cbn [re_sub_from drop_commas]. rewrite match_at_comma. unfold clause_follows.
    simpl in L.
    destruct (Ascii.eqb_spec "," c) as [<-|N].
    + destruct (clause_text w1 w2 s) as [[t r]|] eqn:T.
      * destruct (clause_text_sound _ _ _ T) as [-> Ht].
        rewrite length_append in L.
        cbn [whole String.length first_group group lookup_group Nat.eqb andb Ascii.eqb Bool.eqb].
        replace (S (String.length t) - 1) with (String.length t) by lia.
        rewrite re_skip, (IH r) by lia.
        now rewrite drop_commas_copy.
      * simpl. f_equal. apply IH. lia.
    + destruct (Ascii.eqb_spec c ",") as [->|_]; [contradiction|].
      simpl. f_equal. apply IH. lia.
Qed.

End Clause.


Lemma uncomma_cons c (s : string) :
  replace "," "" (String c s)
  = if Ascii.eqb c "," then replace "," "" s else String c (replace "," "" s).
Proof.
  unfold replace. cbn [replace_from]. rewrite prefix_cons, prefix_nil, andb_true_r.
  destruct (Ascii.eqb_spec c ",") as [->|N].
  - reflexivity.
  - destruct (Ascii.eqb_spec "," c) as [E|_]; [now subst c|reflexivity].
Qed.

Lemma drop_commas_uncomma w1 w2 (s : string) :
  replace "," "" (drop_commas w1 w2 s) = replace "," "" s.
Proof.
  induction s as [|c s IH]; [reflexivity|].
  cbn [drop_commas]. rewrite (uncomma_cons c s).
  destruct (Ascii.eqb_spec c ",") as [->|N].
  - destruct (clause_follows w1 w2 s); [exact IH|].
    cbn [andb]. rewrite uncomma_cons. exact IH.
  - cbn [andb]. rewrite uncomma_cons.
    apply Ascii.eqb_neq in N. now rewrite N, IH.
Qed.

(** X8.  The four substitutions together change nothing but commas: with every
    comma deleted, the text they return is the text they were given. *)
Theorem cleanup_changes_commas_only (sql_query : string) :
  let sql_1 := re_sub (comma_before (literal "FROM")) first_group sql_query in
  let sql_2 := re_sub (comma_before (literal "WHERE")) first_group sql_1 in
  let sql_3 :=
    re_sub (comma_before
              (Seq (literal "GROUP") (Seq (Plus is_space) (literal "BY"))))
           first_group sql_2 in
  let sql_4 :=
    re_sub (comma_before
              (Seq (literal "ORDER") (Seq (Plus is_space) (literal "BY"))))
           first_group sql_3 in
  replace "," "" sql_4 = replace "," "" sql_query.
Proof.
  intros sql_1 sql_2 sql_3 sql_4. subst sql_4.
  assert (Plain : forall w, Some "BY" = Some w -> head_is plain w = true)
    by (intros w E; now inversion E).
  assert (Clean : forall w, Some "BY" = Some w -> contains "," w = false)
    by (intros w E; now inversion E).
  unfold re_sub at 1.
  rewrite (sub_is_drop "ORDER" (Some "BY") eq_refl Plain eq_refl Clean
             (String.length sql_3)), drop_commas_uncomma by lia.
  subst sql_3. unfold re_sub at 1.
  rewrite (sub_is_drop "GROUP" (Some "BY") eq_refl Plain eq_refl Clean
             (String.length sql_2)), drop_commas_uncomma by lia.
  subst sql_2. unfold re_sub at 1.
  rewrite (sub_is_drop "WHERE" None eq_refl) with (n := String.length sql_1);
    [|discriminate|reflexivity|discriminate|lia].
  rewrite drop_commas_uncomma.
  subst sql_1. unfold re_sub.
  rewrite (sub_is_drop "FROM" None eq_refl) with (n := String.length sql_query);
    [|discriminate|reflexivity|discriminate|lia].
  apply drop_commas_uncomma.
Qed.

End CleanupFacts.

(** ** Generation: the requests sent, the query selected, the query executed *)

Module GenerationFacts.
Import PyStr QueryProcessor ChatInterface ScanView ServiceLog TextScope.
Import PlanFacts SelectionFacts ScanFacts RewriteFacts.
Local Open Scope list_scope.

(** *** The order of confidences *)

Lemma SFltb_trans x y z :
  SFltb x y = true -> SFltb y z = true -> SFltb x z = true.
Proof.
  unfold SFltb, SFcompare.
  destruct x as [sx|sx| |sx mx ex], y as [sy|sy| |sy my ey],
           z as [sz|sz| |sz mz ez];
    try destruct sx; try destruct sy; try destruct sz;
    try discriminate; try reflexivity.
  - destruct (Z.compare_spec ex ey), (Z.compare_spec ey ez),
      (Z.compare_spec ex ez); subst; try discriminate; try reflexivity;
      try lia.
    change (Pos.compare_cont Eq ?a ?b) with (Pos.compare a b).
    destruct (Pos.compare_spec mx my), (Pos.compare_spec my mz),
      (Pos.compare_spec mx mz); subst; try discriminate; try reflexivity;
      lia.
  - destruct (Z.compare_spec ex ey), (Z.compare_spec ey ez),
      (Z.compare_spec ex ez); subst; try discriminate; try reflexivity;
      try lia.
    change (Pos.compare_cont Eq ?a ?b) with (Pos.compare a b).
    destruct (Pos.compare_spec mx my), (Pos.compare_spec my mz),
      (Pos.compare_spec mx mz); subst; try discriminate; try reflexivity;
      lia.
Qed.

Lemma confidence_above_trans (a b c : float) :
  PrimFloat.ltb a b = true -> PrimFloat.ltb b c = true ->
  PrimFloat.ltb a c = true.
Proof. rewrite !ltb_spec. apply SFltb_trans. Qed.

(** The loop state is never below a candidate seen so far; it is either
    the initial one or a candidate with a confidence above zero. *)
Lemma select_best_invariant (l : list (string * float)) :
  Forall (fun pc => PrimFloat.ltb (snd (select_best l)) (snd pc) = false) l /\
  (select_best l = (None, 0%float) \/
   exists q, fst (select_best l) = Some q /\
             In (q, snd (select_best l)) l /\
             PrimFloat.ltb 0 (snd (select_best l)) = true).
Proof.
  induction l as [|[q0 c0] l [IHf IHs]] using rev_ind.
  - split; [constructor|now left].
  - rewrite select_best_snoc. unfold keep_best.
    destruct (PrimFloat.ltb (snd (select_best l)) c0) eqn:Hlt.
    + cbn [fst snd]. split.
      * apply Forall_app. split.
        -- apply Forall_forall. intros pc I.
           rewrite Forall_forall in IHf. specialize (IHf pc I).
           destruct (PrimFloat.ltb c0 (snd pc)) eqn:A; [|reflexivity].
           rewrite (confidence_above_trans _ _ _ Hlt A) in IHf.
           discriminate IHf.
        -- constructor; [|constructor]. apply confidence_not_above_itself.
      * right. exists q0. split; [reflexivity|]. split.
        -- apply in_or_app. right. now left.
        -- destruct IHs as [E|[q [_ [_ P]]]].
           ++ now rewrite E in Hlt.
           ++ exact (confidence_above_trans _ _ _ P Hlt).
    + split.
      * apply Forall_app. split; [exact IHf|]. now repeat constructor.
      * destruct IHs as [E|[q [F [I P]]]]; [now left|].
        right. exists q. split; [exact F|]. split; [|exact P].
        apply in_or_app. now left.
Qed.

Section WithService.

Context {World : Type}.
Variable complete : Request -> World -> string * World.
Variable py_float : string -> option float.

(** *** The query selected *)

(** X9.  With several chunks, the query that [generate_sql] returns is one of
    the candidates generated for the chunks, its confidence is above zero,
    and no candidate has a confidence strictly greater than it. *)
Theorem selected_query_scores_highest (query : string)
    (relevant_tables : list TableCandidate) (w : World) (best_query : string) :
  let vw := validate_tables complete relevant_tables w in
  let scored :=
    fst (run_chunks complete py_float query (plan (fst vw)) (snd vw)) in
  (tables_per_chunk < length (fst vw))%nat ->
  fst (generate_sql complete py_float query relevant_tables w) = Some best_query ->
  exists confidence,
    In (best_query, confidence) scored /\
    PrimFloat.ltb 0 confidence = true /\
    Forall (fun pc => PrimFloat.ltb confidence (snd pc) = false) scored.
Proof.
  intros vw scored L. subst scored. rewrite generate_sql_by_plan. fold vw.
  apply Nat.leb_gt in L. rewrite L.
  destruct (run_chunks complete py_float query (plan (fst vw)) (snd vw))
    as [candidates w'].
  cbn [fst]. intros B.
  destruct (select_best_invariant candidates) as [F [E|[q [Q [I P]]]]].
  - rewrite E in B. discriminate B.
  - rewrite B in Q. inversion Q; subst q.
    exists (snd (select_best candidates)). auto.
Qed.

(** *** The query handed to the database *)

Lemma run_chunks_candidates query chunks : forall (w : World) q c,
  In (q, c) (fst (run_chunks complete py_float query chunks w)) ->
  exists chunk w',
    In chunk chunks /\ q = fst (process_schema_chunk complete chunk query w').
Proof.
  induction chunks as [|chunk chunks IH]; intros w q c I; [contradiction|].
  cbn [run_chunks] in I. unfold bind, ret in I.
  destruct (process_schema_chunk complete chunk query w) as [q1 w1] eqn:P.
  destruct (evaluate_query_confidence complete py_float q1 query chunk w1)
    as [c1 w2].
  destruct (run_chunks complete py_float query chunks w2) as [cs w3] eqn:R.
  cbn [fst] in I. destruct I as [E|I].
  - inversion E; subst. exists chunk, w. rewrite P. split; [now left|reflexivity].
  - assert (I' : In (q, c) (fst (run_chunks complete py_float query chunks w2)))
      by now rewrite R.
    destruct (IH _ _ _ I') as [ch [w' [Hin E]]].
    exists ch, w'. split; [now right|exact E].
Qed.

(** What [process_schema_chunk] returns is stable under the rewrite with
    the names of the chunk. *)
Lemma chunk_query_stable chunk query (w : World) :
  _process_sql_query (fst (process_schema_chunk complete chunk query w))
                     (map table_name chunk)
  = fst (process_schema_chunk complete chunk query w).
Proof.
  unfold process_schema_chunk, bind, ret.
  destruct (complete (AskSql chunk query) w) as [content w']. cbn [fst].
  rewrite !process_is_scan.
  match goal with
  | |- scan_from _ 0 false (scan_from _ 0 false ?s) = _ =>
      apply (sub_idempotent (map table_name chunk) (String.length s)); lia
  end.
Qed.

(** X10.  When the completion service answers the requests for a query
    with ASCII text and the candidates have ASCII names, the query that
    [process_query] hands to [execute_query] is not empty, and it is in
    rewritten form for the tables of a chunk of the plan: rewriting it again
    with the names of that chunk changes nothing. *)
Theorem executed_query_is_rewritten (query : string)
    (relevant_tables : list TableCandidate) (w : World) (sql : string) :
  (forall tables text (w' : World),
     ascii_text (fst (complete (AskSql tables text) w')) = true) ->
  ascii_names (map table_name relevant_tables) = true ->
  fst (process_query complete py_float query relevant_tables w) = Execute sql ->
  sql <> "" /\
  exists chunk,
    In chunk (plan (fst (validate_tables complete relevant_tables w))) /\
    _process_sql_query sql (map table_name chunk) = sql.
Proof.
  intros _ _. unfold process_query.
  destruct relevant_tables as [|t ts]; [discriminate|].
  unfold bind. rewrite generate_sql_by_plan.
  set (vw := validate_tables complete (t :: ts) w).
  unfold plan.
  destruct (length (fst vw) <=? tables_per_chunk)%nat eqn:L.
  - destruct (process_schema_chunk complete (fst vw) query (snd vw))
      as [q w'] eqn:P.
    destruct q as [|c q]; [discriminate|]. unfold ret. cbn [fst].
    intros E. inversion E; subst sql. split; [discriminate|].
    exists (fst vw). split; [now left|].
    pose proof (chunk_query_stable (fst vw) query (snd vw)) as S.
    now rewrite P in S.
  - pose proof (run_chunks_candidates query
                  (map (fun i => slice (fst vw) i (i + tables_per_chunk))
                       (py_range 0 (length (fst vw)) tables_per_chunk))
                  (snd vw)) as C.
    destruct (run_chunks complete py_float query _ (snd vw)) as [cands w'].
    cbn [fst] in C.
    destruct (fst (select_best cands)) as [q|] eqn:B; [|discriminate].
    destruct q as [|c q]; [discriminate|]. unfold ret. cbn [fst].
    intros E. inversion E; subst sql. split; [discriminate|].
    destruct (select_best_winner _ _ B) as [l1 [conf [l2 [El _]]]].
    destruct (C (String c q) conf) as [chunk [w1 [I Q]]].
    { rewrite El. apply in_or_app. right. now left. }
    exists chunk. split; [exact I|]. rewrite Q. apply chunk_query_stable.
Qed.

(** *** When validation keeps no table *)

(** X11.  When the validation keeps none of the candidates, [generate_sql] still
    asks for a query, for an empty list of tables, and returns it; so
    [process_query], given at least one candidate, executes that query
    unless it is empty. *)
Theorem nothing_validated_still_generates (query : string)
    (relevant_tables : list TableCandidate) (w : World) :
  let vw := validate_tables complete relevant_tables w in
  let sql := fst (process_schema_chunk complete [] query (snd vw)) in
  fst vw = [] ->
  relevant_tables <> [] ->
  fst (generate_sql complete py_float query relevant_tables w) = Some sql /\
  fst (process_query complete py_float query relevant_tables w)
  = if sql =? "" then Failed "Failed to generate SQL query" else Execute sql.
Proof.
  intros vw sql V N. subst sql.
  assert (G : generate_sql complete py_float query relevant_tables w
              = let (sql, w') := process_schema_chunk complete [] query (snd vw) in
                (Some sql, w')).
  { rewrite generate_sql_by_plan. fold vw. now rewrite V. }
  split.
  - rewrite G. now destruct (process_schema_chunk complete [] query (snd vw)).
  - unfold process_query. destruct relevant_tables as [|t ts]; [contradiction|].
    unfold bind, ret. rewrite G.
    destruct (process_schema_chunk complete [] query (snd vw)) as [q w'].
    cbn [fst]. now destruct q.
Qed.

(** *** The requests sent *)

Lemma recorded_validation tables log (w : World) :
  validate_tables (recording complete) tables (log, w)
  = let (validated, w') := validate_tables complete tables w in
    (validated, (log ++ [AskRelevant tables], w')).
Proof.
  unfold validate_tables, bind, ret, recording. cbn [fst snd].
  now destruct (complete (AskRelevant tables) w).
Qed.

Lemma recorded_chunk tables query log (w : World) :
  process_schema_chunk (recording complete) tables query (log, w)
  = let (sql, w') := process_schema_chunk complete tables query w in
    (sql, (log ++ [AskSql tables query], w')).
Proof.
  unfold process_schema_chunk, bind, ret, recording. cbn [fst snd].
  now destruct (complete (AskSql tables query) w).
Qed.

Lemma recorded_confidence sql query tables log (w : World) :
  evaluate_query_confidence (recording complete) py_float sql query tables (log, w)
  = let (confidence, w') :=
      evaluate_query_confidence complete py_float sql query tables w in
    (confidence, (log ++ [AskConfidence sql query tables], w')).
Proof.
  unfold evaluate_query_confidence, bind, ret, recording. cbn [fst snd].
  now destruct (complete (AskConfidence sql query tables) w).
Qed.

Lemma recorded_chunks query chunks : forall log (w : World),
  run_chunks (recording complete) py_float query chunks (log, w)
  = let (candidates, w') := run_chunks complete py_float query chunks w in
    (candidates,
     (log ++ concat (map (chunk_requests query) (combine chunks candidates)),
      w')).
Proof.
  induction chunks as [|chunk chunks IH]; intros log w.
  - cbn. now rewrite app_nil_r.
  - cbn [run_chunks]. unfold bind, ret.
    rewrite recorded_chunk.
    destruct (process_schema_chunk complete chunk query w) as [q w1].
    rewrite recorded_confidence.
    destruct (evaluate_query_confidence complete py_float q query chunk w1)
      as [c w2].
    rewrite IH.
    destruct (run_chunks complete py_float query chunks w2) as [cs w3].
    cbn [combine map concat chunk_requests fst snd].
    now rewrite <- !app_assoc.
Qed.

(** X12.  [generate_sql] first sends the relevance request.  When the validated
    tables fit in one chunk it then sends one request for a query over all
    of them, and no request for a confidence; otherwise it sends, for each
    chunk of the plan in order, the request for a query over the chunk and
    then the request for the confidence of the query just obtained.
    Recording the requests does not change the answer. *)
Theorem generate_sql_requests (query : string)
    (relevant_tables : list TableCandidate) (log : list Request) (w : World) :
  let vw := validate_tables complete relevant_tables w in
  let validated := fst vw in
  let scored :=
    fst (run_chunks complete py_float query (plan validated) (snd vw)) in
  generate_sql (recording complete) py_float query relevant_tables (log, w)
  = let (answer, w') := generate_sql complete py_float query relevant_tables w in
    (answer,
     (log ++ AskRelevant relevant_tables
          :: (if (length validated <=? tables_per_chunk)%nat
              then [AskSql validated query]
              else concat (map (chunk_requests query)
                               (combine (plan validated) scored))),
      w')).
Proof.
  intros vw validated scored. subst validated scored.
  rewrite !generate_sql_by_plan. rewrite recorded_validation. fold vw.
  destruct vw as [validated w1]. cbn [fst snd].
  destruct (length validated <=? tables_per_chunk)%nat.
  - rewrite recorded_chunk.
    destruct (process_schema_chunk complete validated query w1) as [sql w2].
    now rewrite <- app_assoc.
  - rewrite recorded_chunks.
    destruct (run_chunks complete py_float query (plan validated) w1)
      as [cs w2].
    cbn [fst]. now rewrite <- app_assoc.
Qed.

(** *** The chunks *)

Lemma run_chunks_length query chunks : forall (w : World),
  length (fst (run_chunks complete py_float query chunks w)) = length chunks.
Proof.
  induction chunks as [|chunk chunks IH]; intros w; [reflexivity|].
  cbn [run_chunks]. unfold bind, ret.
  destruct (process_schema_chunk complete chunk query w) as [q w1].
  destruct (evaluate_query_confidence complete py_float q query chunk w1)
    as [c w2].
  specialize (IH w2).
  destruct (run_chunks complete py_float query chunks w2) as [cs w3].
  cbn [fst length] in *. now rewrite IH.
Qed.

Lemma asked_tables_app a b :
  asked_tables (a ++ b) = asked_tables a ++ asked_tables b.
Proof. unfold asked_tables. apply flat_map_app. Qed.

Lemma asked_tables_turns query chunks : forall candidates,
  length candidates = length chunks ->
  asked_tables (concat (map (chunk_requests query) (combine chunks candidates)))
  = chunks.
Proof.
  induction chunks as [|chunk chunks IH]; intros [|c cs] L;
    try discriminate L; [reflexivity|].
  cbn [combine map concat chunk_requests fst snd app].
  cbn [asked_tables flat_map app]. fold (asked_tables
    (concat (map (chunk_requests query) (combine chunks cs)))).
  rewrite IH by (simpl in L; lia). reflexivity.
Qed.

Lemma recorded_generate_sql query relevant_tables log (w : World) :
  let vw := validate_tables complete relevant_tables w in
  generate_sql (recording complete) py_float query relevant_tables (log, w)
  = let (answer, w') := generate_sql complete py_float query relevant_tables w in
    (answer,
     (log ++ AskRelevant relevant_tables
          :: (if (length (fst vw) <=? tables_per_chunk)%nat
              then [AskSql (fst vw) query]
              else concat
                     (map (chunk_requests query)
                        (combine (plan (fst vw))
                           (fst (run_chunks complete py_float query
                                   (plan (fst vw)) (snd vw)))))),
      w')).
Proof.
  intros vw. subst vw.
  rewrite !generate_sql_by_plan. rewrite recorded_validation.
  destruct (validate_tables complete relevant_tables w) as [validated w1].
  cbn [fst snd].
  destruct (length validated <=? tables_per_chunk)%nat.
  - rewrite recorded_chunk.
    destruct (process_schema_chunk complete validated query w1) as [sql w2].
    now rewrite <- app_assoc.
  - rewrite recorded_chunks.
    destruct (run_chunks complete py_float query (plan validated) w1)
      as [cs w2].
    cbn [fst]. now rewrite <- app_assoc.
Qed.

(** C2.  The lists of tables for which [generate_sql] requests a query are
    the chunks of [plan] for the validated tables, in order, one request
    each.  [tables_per_chunk] is [max(1, MAX_TOKENS // TOKENS_PER_TABLE) = 5];
    a list of at most that many candidates gives a single chunk holding all
    of them in order; a longer list is cut into consecutive slices that
    together give back the list, each of exactly [tables_per_chunk] tables
    except the last, which holds between one and [tables_per_chunk]; twelve
    candidates give chunks of sizes 5, 5 and 2. *)
Theorem generate_sql_chunks :
  (forall query relevant_tables (w : World),
     asked_tables
       (fst (snd (generate_sql (recording complete) py_float query
                    relevant_tables ([], w))))
     = plan (fst (validate_tables complete relevant_tables w))) /\
  tables_per_chunk = Nat.max 1 (MAX_TOKENS / TOKENS_PER_TABLE) /\
  tables_per_chunk = 5%nat /\
  (forall l : list TableCandidate,
     (length l <= tables_per_chunk)%nat -> plan l = [l]) /\
  (forall l : list TableCandidate,
     (tables_per_chunk < length l)%nat ->
     concat (plan l) = l /\
     length (plan l)
     = ((length l + tables_per_chunk - 1) / tables_per_chunk)%nat /\
     exists full last,
       plan l = full ++ [last] /\
       Forall (fun c => length c = tables_per_chunk) full /\
       (1 <= length last <= tables_per_chunk)%nat) /\
  (forall l : list TableCandidate,
     length l = 12%nat -> map (@length TableCandidate) (plan l) = [5; 5; 2]%nat).
Proof.
  split; [|exact (plan_shape TableCandidate)].
  intros query relevant_tables w.
  pose proof (recorded_generate_sql query relevant_tables [] w) as R.
  cbv zeta in R. rewrite R. clear R.
  destruct (generate_sql complete py_float query relevant_tables w)
    as [answer w'].
  cbn [fst snd app asked_tables flat_map].
  fold (asked_tables
          (if (length (fst (validate_tables complete relevant_tables w))
               <=? tables_per_chunk)%nat
           then [AskSql (fst (validate_tables complete relevant_tables w)) query]
           else concat
                  (map (chunk_requests query)
                     (combine
                        (plan (fst (validate_tables complete relevant_tables w)))
                        (fst (run_chunks complete py_float query
                                (plan (fst (validate_tables complete
                                              relevant_tables w)))
                                (snd (validate_tables complete
                                        relevant_tables w)))))))).
  destruct (validate_tables complete relevant_tables w) as [validated w1].
  cbn [fst snd].
  destruct (length validated <=? tables_per_chunk)%nat eqn:L.
  - unfold plan. now rewrite L.
  - apply asked_tables_turns. apply run_chunks_length.
Qed.

End WithService.

Lemma selected_query_scores_highest_witness :
  exists confidence,
    In ("SELECT count(*) FROM t6", confidence)
       [("SELECT count(*) FROM t1", Fixtures.f0_3);
        ("SELECT count(*) FROM t6", Fixtures.f0_9);
        ("SELECT count(*) FROM t11", Fixtures.f0_9)] /\
    PrimFloat.ltb 0 confidence = true /\
    Forall (fun pc => PrimFloat.ltb confidence (snd pc) = false)
       [("SELECT count(*) FROM t1", Fixtures.f0_3);
        ("SELECT count(*) FROM t6", Fixtures.f0_9);
        ("SELECT count(*) FROM t11", Fixtures.f0_9)].
Proof.
  apply (selected_query_scores_highest Fixtures.canned Fixtures.float_of_literal
           "count rows" Fixtures.twelve_tables
           [Fixtures.all_twelve;
            "SELECT count(*) FROM t1"; "0.3";
            "SELECT count(*) FROM t6"; "0.9";
            "SELECT count(*) FROM t11"; "0.9"]
           "SELECT count(*) FROM t6").
  - vm_compute. lia.
  - reflexivity.
Defined.

Lemma executed_query_is_rewritten_witness :
  ("SELECT * FROM " ++ dquote ++ "Orders" ++ dquote)%string <> "" /\
  exists chunk,
    In chunk [[Fixtures.table "Orders"]] /\
    _process_sql_query ("SELECT * FROM " ++ dquote ++ "Orders" ++ dquote)%string
                       (map table_name chunk)
    = ("SELECT * FROM " ++ dquote ++ "Orders" ++ dquote)%string.
Proof.
  apply (executed_query_is_rewritten
           (Fixtures.scripted ["Orders"; "SELECT * FROM orders"])
           Fixtures.float_of_literal
           "all orders" [Fixtures.table "Orders"; Fixtures.table "users"] 0).
  - intros tables text calls.
    do 2 (destruct calls as [|calls]; [reflexivity|]). now destruct calls.
  - reflexivity.
  - reflexivity.
Defined.

Lemma nothing_validated_still_generates_witness :
  fst (generate_sql Fixtures.canned Fixtures.float_of_literal "the time"
         [Fixtures.table "users"] ["none"; "SELECT now()"])
  = Some "SELECT now()" /\
  fst (process_query Fixtures.canned Fixtures.float_of_literal "the time"
         [Fixtures.table "users"] ["none"; "SELECT now()"])
  = Execute "SELECT now()".
Proof.
  apply (nothing_validated_still_generates Fixtures.canned
           Fixtures.float_of_literal "the time" [Fixtures.table "users"]
           ["none"; "SELECT now()"]).
  - reflexivity.
  - discriminate.
Defined.

Lemma generate_sql_chunks_witness :
  map (@length TableCandidate)
    (asked_tables
       (fst (snd (generate_sql (recording Fixtures.canned)
                    Fixtures.float_of_literal "count rows"
                    Fixtures.twelve_tables
                    ([], [Fixtures.all_twelve;
                          "SELECT count(*) FROM t1"; "0.3";
                          "SELECT count(*) FROM t6"; "0.9";
                          "SELECT count(*) FROM t11"; "0.9"])))))
  = [5; 5; 2]%nat.
Proof.
  destruct (@generate_sql_chunks (list string) Fixtures.canned
              Fixtures.float_of_literal) as [Link [_ [_ [_ [_ Twelve]]]]].
  rewrite Link. apply Twelve. reflexivity.
Defined.

End GenerationFacts.

(** ** The ignore file of [SchemaEnricher] *)

Module IgnoreFacts.
Import PyStr SchemaEnricher DigestSchema ValidationFacts ScanFacts CleanupFacts.




Lemma strip_spaces (s : string) : str_forall is_space s = true -> strip s = "".
Proof.
  intros H. unfold strip.
  assert (L : lstrip s = "").
  { induction s as [|c s IH]; [reflexivity|]. simpl in *.
    apply andb_true_iff in H as [Hc Hs]. rewrite Hc. auto. }
  now rewrite L.
Qed.

Lemma hash_not_space (s : string) :
  str_forall is_space s = true -> contains "#" s = false.
Proof.
  unfold contains. induction s as [|c s IH]; cbn [str_exists str_forall];
    [reflexivity|].
  intros H. apply andb_true_iff in H as [Hc Hs]. rewrite (IH Hs), orb_false_r.
  destruct (Ascii.eqb_spec "#" c) as [<-|N]; [discriminate Hc|reflexivity].
Qed.

Lemma split_head_whole sep (s : string) :
  contains sep s = false -> hd "" (split sep s) = s.
Proof.
  unfold contains. induction s as [|c s IH]; cbn [str_exists split];
    [reflexivity|].
  intros H. apply orb_false_iff in H as [Hc Hs].
  destruct (Ascii.eqb_spec c sep) as [->|N].
  - now rewrite Ascii.eqb_refl in Hc.
  - specialize (IH Hs). destruct (split sep s) as [|f fs] eqn:S.
    + now apply split_nonempty in S.
    + simpl in *. now subst.
Qed.

Lemma split_head_before sep (a r : string) :
  contains sep a = false -> hd "" (split sep (a ++ String sep r)) = a.
Proof.
  unfold contains. induction a as [|c a IH]; cbn [str_exists].
  - intros _. simpl. now rewrite Ascii.eqb_refl.
  - intros H. apply orb_false_iff in H as [Hc Ha].
    change (String c a ++ String sep r) with (String c (a ++ String sep r)).
    cbn [split].
    destruct (Ascii.eqb_spec c sep) as [->|N].
    + now rewrite Ascii.eqb_refl in Hc.
    + specialize (IH Ha). destruct (split sep (a ++ String sep r)) as [|f fs] eqn:S.
      * now apply split_nonempty in S.
      * simpl in *. now subst.
Qed.

(** The pattern read from a line. *)
Local Abbreviation pattern_of := (fun line => strip (hd "" (split "#" line))).


(** A line is a comment or blank when nothing but whitespace comes before
    its first [#], or before its end when it has none. *)
Lemma comment_line_empty line :
  lstrip line = "" \/ Re.head_is (Ascii.eqb "#") (lstrip line) = true ->
  pattern_of line = "".
Proof.
  destruct (lstrip_spec line) as [a [E [Ha _]]].
  pose proof (hash_not_space _ Ha) as Hh.
  intros [L|L].
  - rewrite L, append_nil_r in E. subst a.
    rewrite split_head_whole by exact Hh. now apply strip_spaces.
  - destruct (lstrip line) as [|c r]; [discriminate L|].
    cbn [Re.head_is] in L. apply Ascii.eqb_eq in L. subst c.
    rewrite E, split_head_before by exact Hh. now apply strip_spaces.
Qed.

Lemma set_add_in x y (s : list string) :
  In x (set_add y s) <-> x = y \/ In x s.
Proof.
  unfold set_add, str_in.
  destruct (existsb (String.eqb y) s) eqn:X.
  - split; [auto|]. intros [->|I]; [|exact I].
    apply existsb_exists in X as [z [I E]]. apply String.eqb_eq in E. now subst.
  - rewrite in_app_iff. simpl. intuition.
Qed.


Local Abbreviation add_line :=
  (fun ignored_tables line =>
     let line := strip (hd "" (split "#" line)) in
     match line with
     | "" => ignored_tables
     | String _ _ => set_add line ignored_tables
     end).

Lemma load_fold lines : forall acc p,
  In p (fold_left add_line lines acc) <->
  In p acc \/ (p <> "" /\ exists line, In line lines /\ p = pattern_of line).
Proof.
  induction lines as [|line lines IH]; intros acc p; cbn [fold_left].
  - split; [auto|]. intros [I|[_ [line [[] _]]]]. exact I.
  - rewrite IH. cbv zeta.
    destruct (strip (hd "" (split "#" line))) as [|c r] eqn:P.
    + split.
      * intros [I|[N [l [I E]]]]; [auto|]. right. split; [exact N|].
        exists l. split; [now right|exact E].
      * intros [I|[N [l [[<-|I] E]]]]; [auto| |].
        -- rewrite P in E. contradiction.
        -- right. split; [exact N|]. now exists l.
    + rewrite set_add_in. split.
      * intros [[->|I]|[N [l [I E]]]]; [| auto |].
        -- right. split; [discriminate|]. exists line. split; [now left|].
           now rewrite P.
        -- right. split; [exact N|]. exists l. split; [now right|exact E].
      * intros [I|[N [l [[<-|I] E]]]]; [auto| |].
        -- left. left. now rewrite P in E.
        -- right. split; [exact N|]. now exists l.
Qed.


Lemma loaded_patterns (ignore_file : option string) (pattern : string) :
  In pattern (_load_ignored_tables ignore_file) <->
  pattern <> "" /\
  exists text line,
    ignore_file = Some text /\ In line (file_lines text) /\
    pattern = strip (hd "" (split "#" line)).
Proof.
  destruct ignore_file as [text|]; cbn [_load_ignored_tables].
  - rewrite (load_fold (file_lines text) [] pattern). split.
    + intros [[]|[N [line [I E]]]]. split; [exact N|]. now exists text, line.
    + intros [N [t [line [T [I E]]]]]. inversion T; subst t.
      right. split; [exact N|]. now exists line.
  - split; [intros []|]. intros [_ [t [line [T _]]]]. discriminate T.
Qed.


(** X14.  With no ignore file, or with one whose lines are all blank or comments
    (only whitespace before the first [#]), no table is skipped, whatever
    [fnmatch] does; this is the case of the file that
    [create_default_ignore_file] writes. *)
Theorem comment_only_file_ignores_nothing (fnmatch : string -> string -> bool)
    (ignore_file : option string) :
  (forall text line,
     ignore_file = Some text -> In line (file_lines text) ->
     lstrip line = "" \/ Re.head_is (Ascii.eqb "#") (lstrip line) = true) ->
  _load_ignored_tables ignore_file = [] /\
  forall table_name,
    _should_process_table fnmatch (_load_ignored_tables ignore_file) table_name
    = true.
Proof.
  intros H.
  assert (E : _load_ignored_tables ignore_file = []).
  { destruct (_load_ignored_tables ignore_file) as [|p ps] eqn:L; [reflexivity|].
    assert (I : In p (_load_ignored_tables ignore_file)) by (rewrite L; now left).
    apply loaded_patterns in I
      as [N [text [line [T [Il Ep]]]]].
    rewrite (comment_line_empty line (H _ _ T Il)) in Ep. contradiction. }
  split; [exact E|]. intros table_name. now rewrite E.
Qed.

Lemma comment_only_file_ignores_nothing_witness :
  _load_ignored_tables (snd (create_default_ignore_file None)) = [] /\
  forall table_name,
    _should_process_table (fun _ _ => true)
      (_load_ignored_tables (snd (create_default_ignore_file None))) table_name
    = true.
Proof.
  apply comment_only_file_ignores_nothing.
  intros text line T I. injection T as <-. vm_compute in I.
  repeat (destruct I as [<-|I]; [right; reflexivity|]). destruct I.
Defined.

End IgnoreFacts.

(** ** From the chat interface *)

Module ChatFacts.
Import PyStr QueryProcessor ChatInterface VectorStore ServiceLog.
Import ValidationFacts SelectionFacts GenerationFacts.
Local Open Scope list_scope.

Section WithService.

Context {World : Type}.
Variable complete : Request -> World -> string * World.
Variable py_float : string -> option float.

(** X15.  [process_query] searches with the default [top_k] of 3, fewer than the
    5 tables of a chunk.  When the search returns no more points than it
    was asked for, the query is therefore always generated from a single
    chunk: with no point found nothing is asked of the completion service;
    otherwise exactly two requests are sent, the relevance request and the
    request for one query over all validated tables, never a request for a
    confidence, and the query obtained is executed unless it is empty. *)
Theorem chat_query_is_never_scored (query : string)
    (search_result : list ScoredPoint) (log : list Request) (w : World) :
  let relevant_tables := find_relevant_tables search_result in
  (length search_result <= default_top_k)%nat ->
  process_query (recording complete) py_float query relevant_tables (log, w)
  = match search_result with
    | [] => (Failed "No relevant tables found for the query", (log, w))
    | _ :: _ =>
        let (validated, w1) := validate_tables complete relevant_tables w in
        let (sql, w2) := process_schema_chunk complete validated query w1 in
        (if (sql =? "")%string
         then Failed "Failed to generate SQL query"
         else Execute sql,
         (log ++ [AskRelevant relevant_tables; AskSql validated query], w2))
    end.
Proof.
  intros relevant_tables L. subst relevant_tables.
  destruct search_result as [|p ps]; [reflexivity|].
  set (tables := find_relevant_tables (p :: ps)).
  assert (N : (length tables <= 3)%nat).
  { unfold tables, find_relevant_tables. now rewrite length_map. }
  unfold process_query.
  change tables with (find_relevant_tables (p :: ps)) at 1.
  cbn [find_relevant_tables map]. fold (find_relevant_tables ps).
  change (mkCandidate _ _ _ _ :: find_relevant_tables ps) with tables.
  unfold bind. rewrite generate_sql_by_plan, recorded_validation.
  pose proof (validate_tables_length complete tables w) as V.
  destruct (validate_tables complete tables w) as [validated w1].
  cbn [fst snd] in *.
  assert (C : (length validated <=? tables_per_chunk)%nat = true).
  { apply Nat.leb_le. change tables_per_chunk with 5%nat. lia. }
  rewrite C, recorded_chunk.
  destruct (process_schema_chunk complete validated query w1) as [sql w2].
  unfold ret. rewrite <- app_assoc. cbn [app]. now destruct sql.
Qed.

End WithService.

Lemma chat_query_is_never_scored_witness :
  process_query (recording Fixtures.canned) Fixtures.float_of_literal
    "all orders"
    (find_relevant_tables
       [mkScoredPoint "Orders" "" (mkSchema [] []) Fixtures.f0_9;
        mkScoredPoint "users" "" (mkSchema [] []) Fixtures.f0_3])
    ([], ["Orders"; "SELECT * FROM orders"])
  = (Execute ("SELECT * FROM " ++ dquote ++ "Orders" ++ dquote)%string,
     ([AskRelevant
         (find_relevant_tables
            [mkScoredPoint "Orders" "" (mkSchema [] []) Fixtures.f0_9;
             mkScoredPoint "users" "" (mkSchema [] []) Fixtures.f0_3]);
       AskSql [mkCandidate "Orders" "" (mkSchema [] []) Fixtures.f0_9]
              "all orders"],
      [])).
Proof.
  apply (chat_query_is_never_scored Fixtures.canned Fixtures.float_of_literal
           "all orders"
           [mkScoredPoint "Orders" "" (mkSchema [] []) Fixtures.f0_9;
            mkScoredPoint "users" "" (mkSchema [] []) Fixtures.f0_3]
           [] ["Orders"; "SELECT * FROM orders"]).
  vm_compute. lia.
Defined.

End ChatFacts.

(** ** The questions that reach [process_query] *)

Module LoopFacts.
Import PyStr ChatLoop IgnoreFacts.
Local Open Scope list_scope.




End LoopFacts.
